(** * weather-api: a rate-limited, cache-aside weather gateway (main.go)

    The Go program registers one handler, [/weather], built as
    [rateLimiterMiddleware(redisMiddleware(redisDB), rate.Limit(2), 10)].
    This development embeds the handler as a program over a small set of
    primitive operations (map access, limiter calls, Redis calls, the
    upstream HTTP call, the response writer), gives the operations a
    meaning on an explicit world, and proves properties of the handler.

    What lives outside main.go (the token bucket of golang.org/x/time/rate,
    the Redis server, net.SplitHostPort, encoding/json, the upstream
    service) is either modelled from the specification or taken as a
    parameter; each such place says so. *)

From Stdlib Require Import ZArith QArith Lqa Floats Ascii String Sorted.
From stdpp Require Import base option list gmap strings pretty.

Local Open Scope string_scope.
Local Open Scope Z_scope.

(** ** Data model *)

(** Go's [error] values are observed only through [Error()], a string. *)
Definition error : Type := string.

(** A Go result pair [(v, err)]: either a value or an error. *)
Inductive result (A : Type) : Type :=
| Ok (a : A)
| Err (e : error).
Arguments Ok {A} a.
Arguments Err {A} e.

(** [type Day struct] and [type Weather struct]; [float64] is binary64. *)
Record Day : Type := mkDay {
  Datetime : string;
  Temp : float;
  FeelsLike : float;
  WindSpeed : float;
  Visibility : float;
  UVIndex : float;
  Sunrise : string;
  Sunset : string;
  Icon : string;
  DayDescription : string
}.

Record Weather : Type := mkWeather {
  Latitude : float;
  Longitude : float;
  ResolvedAddress : string;
  Timezone : string;
  Description : string;
  Days : list Day
}.

(** The part of [*http.Request] the handlers read: the remote address and
    the parsed query ([url.Values] is a [map[string][]string]). *)
Record Request : Type := mkRequest {
  RemoteAddr : string;
  Query : gmap string (list string)
}.

(** [url.Values.Get]: the first value of the key, or the empty string. *)
Definition Query_Get (r : Request) (key : string) : string :=
  match Query r !! key with
  | Some (v :: _) => v
  | _ => ""
  end.

(** [http.ResponseWriter] as the handlers use it: the header map, the
    status line once written, and the body written so far. *)
Record ResponseWriter : Type := mkResponseWriter {
  w_header : gmap string string;
  w_status : option Z;
  w_body : string
}.

Definition newResponseWriter : ResponseWriter :=
  mkResponseWriter ∅ None "".

Definition StatusOK : Z := 200.
Definition StatusTooManyRequests : Z := 429.
Definition StatusInternalServerError : Z := 500.

(** [time.Duration] and instants are counted in nanoseconds. *)
Definition Second : Z := 1000000000.
Definition Minute : Z := 60 * Second.

(** ** The token bucket *)

Module rate.

(** Modelled from the spec: [rate.Limiter] of golang.org/x/time/rate is
    not part of main.go.  Section 3 gives its state (rate in tokens per
    second, burst capacity, current tokens, last refill) and section 4.1
    its algorithm: compute the time elapsed since the last refill, add
    [elapsed * rate] tokens capped at [burst], then consume one token if
    at least one is there.  Tokens are exact rationals here.

    The library is known to depart from this description in ways the
    specification does not mention: it computes in [float64], and it
    lets a call pass when the wait for the missing part of a token
    rounds down to zero nanoseconds.  Close to the threshold of one
    token (within what a nanosecond or a rounding error earns), and for
    rates or bursts beyond what [float64] holds exactly, the library can
    therefore admit a call that the description denies.  No definition
    here imitates this; the statement about a burst being denied (C3) is
    made for the rate and burst of [main] and keeps its calls well
    inside the threshold. *)
Record Limiter : Type := mkLimiter {
  limit : Q;
  burst : Z;
  tokens : Q;
  last : Z
}.

(** Modelled from the spec: a limiter is created with a full bucket (the
    scenario of section 8 admits the first [burst] requests). *)
Definition NewLimiter (r : Q) (b : Z) : Limiter :=
  mkLimiter r b (inject_Z b) 0.

(** Modelled from the spec: the unit conversion of the library is not
    part of main.go.  Section 4.1 adds [elapsed * rate] tokens, with the
    rate in tokens per second (section 3) and the time in nanoseconds
    here; by the invariant of section 3 the refill is monotonic, so a
    rate that is not positive earns nothing. *)
Definition tokensFromDuration (r : Q) (d : Z) : Q :=
  if Qle_bool r 0 then 0 else (d # 1000000000) * r.

(** Modelled from the spec: the refill of the library is not part of
    main.go.  Section 4.1 computes the time elapsed since the last
    refill and adds the tokens it earned, capped at [burst]; the refill
    being monotonic (section 3), a call whose instant lies before the
    last refill earns nothing. *)
Definition advance (now : Z) (lim : Limiter) : Q :=
  let elapsed := if now <? last lim then 0 else now - last lim in
  let t := (tokens lim + tokensFromDuration (limit lim) elapsed)%Q in
  if Qle_bool t (inject_Z (burst lim)) then t else inject_Z (burst lim).

(** Modelled from the spec: the method [Allow] of the library's
    limiter is not part of main.go.  Section 4.1: refill, then attempt
    to consume one token; the call returns true and decrements by one if
    at least one token is available, else false.  The tokens added by
    the refill are kept in either case, and the instant of the call
    becomes the last refill.  (The library leaves the limiter as it was
    when it denies a call; in exact arithmetic and for calls in time
    order this changes no answer.) *)
Definition Allow (now : Z) (lim : Limiter) : bool * Limiter :=
  let t := advance now lim in
  if Qle_bool 1 t
  then (true, mkLimiter (limit lim) (burst lim) (t - 1)%Q now)
  else (false, mkLimiter (limit lim) (burst lim) t now).

(** Calls at the given instants, one after another. *)
Fixpoint AllowAll (times : list Z) (lim : Limiter) : list bool * Limiter :=
  match times with
  | [] => ([], lim)
  | t :: rest =>
      let '(ok, lim') := Allow t lim in
      let '(oks, lim'') := AllowAll rest lim' in
      (ok :: oks, lim'')
  end.

(** The invariant of section 3: the tokens stay within [0, burst]. *)
Definition in_range (lim : Limiter) : Prop :=
  (0 <= tokens lim /\ tokens lim <= inject_Z (burst lim))%Q.

(** A bucket that holds its whole burst for a call at instant [t]. *)
Definition full_at (t : Z) (lim : Limiter) : Prop :=
  (inject_Z (burst lim) <= advance t lim)%Q.

End rate.

(** ** The world the handlers act on *)

(** Limiters are heap objects ([*rate.Limiter]); a location is an index
    into the heap. *)
Abbreviation loc := nat (only parsing).

(** Modelled from the spec: the Redis server is not part of main.go.
    Section 3 describes an entry as (payload, insertion time, TTL), valid
    only while [now < insertion time + TTL]. *)
Record CacheEntry : Type := mkCacheEntry {
  payload : string;
  inserted : Z;
  ttl : Z
}.

(** Modelled from the spec: expiry is the Redis server's, not part of
    main.go.  Section 3: an entry is valid only while
    [now < insertion time + TTL]. *)
Definition valid (now : Z) (e : CacheEntry) : bool :=
  now <? inserted e + ttl e.

(** What a request did to the outside, in order. *)
Inductive Event : Type :=
| EvMapLookup (ip : string) (found : option loc)
| EvMapStore (ip : string) (l : loc)
| EvNewLimiter (l : loc)
| EvAllow (l : loc) (ok : bool)
| EvRedisGet (key : string)
| EvRedisSet (key : string) (value : string) (expiration : Z)
| EvGetenv (name : string)
| EvHttpDo (url : string)
| EvPrintln (line : string).

Record World : Type := mkWorld {
  heap : list rate.Limiter;
  ipLimiterMap : gmap string loc;
  redisDB : gmap string CacheEntry;
  log : list Event
}.

Definition emptyWorld : World := mkWorld [] ∅ ∅ [].

(** The answer of the upstream service to one [client.Do]: the status
    code and what [io.ReadAll(res.Body)] gives. *)
Record HttpResponse : Type := mkHttpResponse {
  StatusCode : Z;
  Body : result string
}.

(** What the outside does during one request: the clock (one instant
    per request), the process environment, whether Redis is reachable
    (and, for a Set that reports an error, whether the server applied
    the write all the same), whether [http.NewRequestWithContext]
    accepts a URL, and the upstream. *)
Record Env : Type := mkEnv {
  now : Z;
  environ : string → string;
  redisGetErr : option error;
  redisSetErr : option error;
  redisSetApplied : bool;
  newRequestErr : string → option error;
  upstream : string → result HttpResponse
}.

(** Modelled from the spec: [redisDB.Get] of go-redis is not part of
    main.go.  Section 6 gives [Get] a value, found or not, and a
    transport error distinct from not-found; an entry past its TTL is
    not found.  Both not-found and a transport error reach the caller as
    an error. *)
Definition redis_Get (env : Env) (db : gmap string CacheEntry)
    (key : string) : result string :=
  match redisGetErr env with
  | Some err => Err err
  | None =>
      match db !! key with
      | Some e => if valid (now env) e then Ok (payload e) else Err "redis: nil"
      | None => Err "redis: nil"
      end
  end.

(** Modelled from the spec: [redisDB.Set] of go-redis is not part of
    main.go.  Section 6 gives [Set] a key, a value and a TTL, and an
    error as its only result; the entry is inserted at the instant of
    the call.  The section does not say what a Set that reports an error
    did to the store (a timeout can follow a write the server applied),
    so the environment decides it: the store is as it was, or holds the
    entry. *)
Definition redis_Set (env : Env) (db : gmap string CacheEntry)
    (key value : string) (expiration : Z)
    : option error * gmap string CacheEntry :=
  let written := <[key := mkCacheEntry value (now env) expiration]> db in
  match redisSetErr env with
  | Some err => (Some err, if redisSetApplied env then written else db)
  | None => (None, written)
  end.

(** ** Primitive operations and programs over them *)

Inductive Eff : Type → Type :=
| MapLookup (ip : string) : Eff (option loc)
| MapStore (ip : string) (l : loc) : Eff unit
| NewLimiter (r : Q) (b : Z) : Eff loc
| LimiterAllow (l : loc) : Eff bool
| RedisGet (key : string) : Eff (result string)
| RedisSet (key : string) (value : string) (expiration : Z) : Eff (option error)
| Getenv (name : string) : Eff string
| NewRequest (url : string) : Eff (option error)
| ClientDo (url : string) : Eff (result HttpResponse)
| Println (line : string) : Eff unit
| HeaderSet (k v : string) : Eff unit
| WriteHeader (code : Z) : Eff unit
| Write (data : string) : Eff unit.

Inductive Prog (A : Type) : Type :=
| Ret (a : A)
| Vis {X : Type} (e : Eff X) (k : X → Prog A).
Arguments Ret {A} a.
Arguments Vis {A X} e k.

Fixpoint bind {A B : Type} (m : Prog A) (f : A → Prog B) : Prog B :=
  match m with
  | Ret a => f a
  | Vis e k => Vis e (λ x, bind (k x) f)
  end.

#[export] Instance Prog_ret : MRet Prog := @Ret.
#[export] Instance Prog_bind : MBind Prog := λ A B f m, bind m f.

Definition trigger {X : Type} (e : Eff X) : Prog X := Vis e Ret.

Definition with_log (σ : World) (ev : Event) : World :=
  mkWorld (heap σ) (ipLimiterMap σ) (redisDB σ) (log σ ++ [ev]).

(** The meaning of one operation during a request with environment
    [env], on the shared world and the request's own response writer.
    A limiter is always one [NewLimiter] returned, so [LimiterAllow] on
    a location that is not allocated does not arise; it answers no.
    The response writer follows net/http: headers set after the status
    line are not sent, a second status line is ignored, and the first
    [Write] without a status sends 200. *)
Definition handle {X : Type} (env : Env) (e : Eff X)
    (s : World * ResponseWriter) : X * (World * ResponseWriter) :=
  let '(σ, w) := s in
  match e in Eff X return X * (World * ResponseWriter) with
  | MapLookup ip =>
      let found := ipLimiterMap σ !! ip in
      (found, (with_log σ (EvMapLookup ip found), w))
  | MapStore ip l =>
      (tt, (mkWorld (heap σ) (<[ip := l]> (ipLimiterMap σ)) (redisDB σ)
                    (log σ ++ [EvMapStore ip l]), w))
  | NewLimiter r b =>
      let l := length (heap σ) in
      (l, (mkWorld (heap σ ++ [rate.NewLimiter r b]) (ipLimiterMap σ)
                   (redisDB σ) (log σ ++ [EvNewLimiter l]), w))
  | LimiterAllow l =>
      match heap σ !! l with
      | Some lim =>
          let '(ok, lim') := rate.Allow (now env) lim in
          (ok, (mkWorld (<[l := lim']> (heap σ)) (ipLimiterMap σ) (redisDB σ)
                        (log σ ++ [EvAllow l ok]), w))
      | None => (false, (with_log σ (EvAllow l false), w))
      end
  | RedisGet key =>
      (redis_Get env (redisDB σ) key, (with_log σ (EvRedisGet key), w))
  | RedisSet key value expiration =>
      let '(err, db) := redis_Set env (redisDB σ) key value expiration in
      (err, (mkWorld (heap σ) (ipLimiterMap σ) db
                     (log σ ++ [EvRedisSet key value expiration]), w))
  | Getenv name => (environ env name, (with_log σ (EvGetenv name), w))
  | NewRequest url => (newRequestErr env url, (σ, w))
  | ClientDo url => (upstream env url, (with_log σ (EvHttpDo url), w))
  | Println line => (tt, (with_log σ (EvPrintln line), w))
  | HeaderSet k v =>
      (tt, (σ, match w_status w with
               | None => mkResponseWriter (<[k := v]> (w_header w)) None (w_body w)
               | Some _ => w
               end))
  | WriteHeader code =>
      (tt, (σ, match w_status w with
               | None => mkResponseWriter (w_header w) (Some code) (w_body w)
               | Some _ => w
               end))
  | Write data =>
      (tt, (σ, mkResponseWriter (w_header w)
                 (match w_status w with None => Some StatusOK | Some c => Some c end)
                 (w_body w ++ data)))
  end.

(** Running a program to its end, one request at a time. *)
Fixpoint run {A : Type} (env : Env) (m : Prog A)
    (s : World * ResponseWriter) : A * (World * ResponseWriter) :=
  match m with
  | Ret a => (a, s)
  | Vis e k => let '(x, s') := handle env e s in run env (k x) s'
  end.

(** ** The handlers of main.go *)

Section Handlers.

(** [net.SplitHostPort], [json.Unmarshal] into a [Weather] and
    [json.Marshal] of a [Weather] are library functions; the handlers are
    stated over any behaviour of them. *)
Variable SplitHostPort : string → result (string * string).
Variable json_Unmarshal : string → result Weather.
Variable json_Marshal : Weather → result string.

(** [fmt.Println] with two operands prints them with a space between. *)
Definition getIP (r : Request) : Prog string :=
  match SplitHostPort (RemoteAddr r) with
  | Err err =>
      trigger (Println ("Error parsing IP : %v" ++ " " ++ err));;
      mret ""
  | Ok (host, _) => mret host
  end.

(** The client identifier [getIP] yields, and what it prints on the way. *)
Definition clientID (r : Request) : string :=
  match SplitHostPort (RemoteAddr r) with
  | Err _ => ""
  | Ok (host, _) => host
  end.

Definition getIP_log (r : Request) : list Event :=
  match SplitHostPort (RemoteAddr r) with
  | Err err => [EvPrintln ("Error parsing IP : %v" ++ " " ++ err)]
  | Ok _ => []
  end.

(** The body [json.NewEncoder(w).Encode] writes for the one-entry map
    with key error and value To many requests (with the final newline). *)
Definition tooManyRequestsBody : string :=
  let q := String "034"%char "" in
  "{" ++ q ++ "error" ++ q ++ ":" ++ q ++ "To many requests" ++ q ++ "}"
      ++ String "010"%char "".

Definition rateLimiterMiddleware (next : Request → Prog unit)
    (limit : Q) (burst : Z) (r : Request) : Prog unit :=
  ip ← getIP r;
  found ← trigger (MapLookup ip);
  limiter ← match found with
            | Some l => mret l
            | None =>
                l ← trigger (NewLimiter limit burst);
                trigger (MapStore ip l);;
                mret l
            end;
  ok ← trigger (LimiterAllow limiter);
  if negb ok then
    trigger (HeaderSet "Content-Type" "application/json");;
    trigger (WriteHeader StatusTooManyRequests);;
    trigger (Write tooManyRequestsBody)
  else next r.

(** [http.Error]: plain-text headers, the status, the message and a
    newline. *)
Definition http_Error (msg : string) (code : Z) : Prog unit :=
  trigger (HeaderSet "Content-Type" "text/plain; charset=utf-8");;
  trigger (HeaderSet "X-Content-Type-Options" "nosniff");;
  trigger (WriteHeader code);;
  trigger (Write (msg ++ String "010"%char "")).

Definition getRedisValue (key : string) : Prog (result string) :=
  trigger (RedisGet key).

Definition setRedisValue (key : string) (value : string) (expiration : Z)
    : Prog (option error) :=
  trigger (RedisSet key value expiration).

Definition weatherURL (country key : string) : string :=
  "https://weather.visualcrossing.com/VisualCrossingWebServices/rest/services/timeline/"
    ++ country ++ "/today?unitGroup=metric&include=days&key=" ++ key
    ++ "&contentType=json".

Definition getWeatherValue (country key : string) : Prog (result Weather) :=
  if decide (key = "") then mret (Err "API key cannot be empty")
  else
    let country := if decide (country = "") then "maltepe" else country in
    let url := weatherURL country key in
    rq ← trigger (NewRequest url);
    match rq with
    | Some err => mret (Err ("failed to create HTTP request: " ++ err))
    | None =>
        res ← trigger (ClientDo url);
        match res with
        | Err err => mret (Err ("failed to make HTTP request: " ++ err))
        | Ok res =>
            match Body res with
            | Err err => mret (Err ("failed to read response body: " ++ err))
            | Ok body =>
                if negb (StatusCode res =? StatusOK) then
                  mret (Err ("status code : " ++ pretty (StatusCode res)
                               ++ " , message : " ++ body))
                else
                  match json_Unmarshal body with
                  | Err err => mret (Err err)
                  | Ok weather => mret (Ok weather)
                  end
            end
        end
    end.

Definition redisMiddleware (r : Request) : Prog unit :=
  let country := Query_Get r "country" in
  cached ← getRedisValue country;
  match cached with
  | Err _ =>
      key ← trigger (Getenv "API_KEY");
      if decide (key = "") then
        http_Error "Api key could not found" StatusInternalServerError
      else
        fetched ← getWeatherValue country key;
        match fetched with
        | Err err =>
            http_Error ("getWeatherValue Error : " ++ err)
                       StatusInternalServerError
        | Ok weather =>
            match json_Marshal weather with
            | Err _ =>
                http_Error "Error marshalling JSON" StatusInternalServerError
            | Ok data =>
                failed ← setRedisValue country data (5 * Minute);
                match failed with
                | Some _ =>
                    http_Error "Error setting value in Redis"
                               StatusInternalServerError
                | None =>
                    trigger (Println "No redis");;
                    trigger (Write data)
                end
            end
        end
  | Ok val =>
      trigger (Println "Yes redis");;
      trigger (Write val)
  end.

(** The handler [main] registers for [/weather]. *)
Definition weatherHandler : Request → Prog unit :=
  rateLimiterMiddleware redisMiddleware 2%Q 10.

(** One request served from start to end: the response it produced and
    the world it left. *)
Definition serve (h : Request → Prog unit) (env : Env) (r : Request)
    (σ : World) : ResponseWriter * World :=
  let '(_, (σ', w)) := run env (h r) (σ, newResponseWriter) in (w, σ').

(** Requests served one after another. *)
Fixpoint serveAll (h : Request → Prog unit) (reqs : list (Env * Request))
    (σ : World) : list ResponseWriter * World :=
  match reqs with
  | [] => ([], σ)
  | (env, r) :: rest =>
      let '(w, σ') := serve h env r σ in
      let '(ws, σ'') := serveAll h rest σ' in
      (w :: ws, σ'')
  end.

(** The ways [getWeatherValue] fails once it has a key, with the error
    it returns for each (the names are those of section 7). *)
Inductive FetchFailure (env : Env) (country key : string) : error → Prop :=
| RequestNotCreated e :
    newRequestErr env
      (weatherURL (if decide (country = "") then "maltepe" else country) key)
      = Some e →
    FetchFailure env country key ("failed to create HTTP request: " ++ e)
| UpstreamUnavailable e :
    newRequestErr env
      (weatherURL (if decide (country = "") then "maltepe" else country) key)
      = None →
    upstream env
      (weatherURL (if decide (country = "") then "maltepe" else country) key)
      = Err e →
    FetchFailure env country key ("failed to make HTTP request: " ++ e)
| BodyUnreadable res e :
    newRequestErr env
      (weatherURL (if decide (country = "") then "maltepe" else country) key)
      = None →
    upstream env
      (weatherURL (if decide (country = "") then "maltepe" else country) key)
      = Ok res →
    Body res = Err e →
    FetchFailure env country key ("failed to read response body: " ++ e)
| UpstreamRejected res body :
    newRequestErr env
      (weatherURL (if decide (country = "") then "maltepe" else country) key)
      = None →
    upstream env
      (weatherURL (if decide (country = "") then "maltepe" else country) key)
      = Ok res →
    Body res = Ok body →
    StatusCode res ≠ StatusOK →
    FetchFailure env country key
      ("status code : " ++ pretty (StatusCode res) ++ " , message : " ++ body)
| UpstreamMalformed res body e :
    newRequestErr env
      (weatherURL (if decide (country = "") then "maltepe" else country) key)
      = None →
    upstream env
      (weatherURL (if decide (country = "") then "maltepe" else country) key)
      = Ok res →
    Body res = Ok body →
    StatusCode res = StatusOK →
    json_Unmarshal body = Err e →
    FetchFailure env country key e.

(** What the cache answers for a key, and what the upstream fetch
    returns and logs: the results of the two functions above, which read
    the world and the environment and write neither heap nor map. *)
Definition cached (env : Env) (σ : World) (key : string) : result string :=
  (run env (getRedisValue key) (σ, newResponseWriter)).1.

Definition fetched (env : Env) (country key : string) : result Weather :=
  (run env (getWeatherValue country key) (emptyWorld, newResponseWriter)).1.

Definition fetch_log (env : Env) (country key : string) : list Event :=
  log (run env (getWeatherValue country key) (emptyWorld, newResponseWriter)).2.1.

End Handlers.

(** ** Observations on worlds and responses *)

(** The response of a request the limiter turned away. *)
Definition tooManyRequestsResponse : ResponseWriter :=
  mkResponseWriter {["Content-Type" := "application/json"]}
    (Some StatusTooManyRequests) tooManyRequestsBody.

(** The response of [w.Write(data)] on a fresh writer, and of
    [http.Error] with the server-error status. *)
Definition okResponse (data : string) : ResponseWriter :=
  mkResponseWriter ∅ (Some StatusOK) data.

Definition errorResponse (msg : string) : ResponseWriter :=
  mkResponseWriter
    (<["X-Content-Type-Options" := "nosniff"]>
       {["Content-Type" := "text/plain; charset=utf-8"]})
    (Some StatusInternalServerError) (msg ++ String "010"%char "").

Definition rejected (w : ResponseWriter) : bool :=
  bool_decide (w_status w = Some StatusTooManyRequests).

(** The limiter a client identifier leads to, through the map and the
    heap. *)
Definition bucket (σ : World) (ip : string) : option rate.Limiter :=
  l ← ipLimiterMap σ !! ip; heap σ !! l.

(** The bucket a client starts a burst with at instant [t]: none yet
    (the handler will make a fresh one), or one of the configured rate
    and burst, within range, that is full at [t]. *)
Definition starts_full (limit : Q) (b : Z) (t : Z)
    (o : option rate.Limiter) : Prop :=
  match o with
  | None => True
  | Some lim =>
      rate.limit lim = limit ∧ rate.burst lim = b ∧
      rate.in_range lim ∧ rate.full_at t lim
  end.

(** Every mapped location is allocated, and no two identifiers are
    mapped to the same limiter. *)
Definition wf (σ : World) : Prop :=
  (∀ ip l, ipLimiterMap σ !! ip = Some l → (l < length (heap σ))%nat) ∧
  (∀ ip1 ip2 l, ipLimiterMap σ !! ip1 = Some l →
                ipLimiterMap σ !! ip2 = Some l → ip1 = ip2).

Definition add_log (σ : World) (evs : list Event) : World :=
  mkWorld (heap σ) (ipLimiterMap σ) (redisDB σ) (log σ ++ evs).

(** A handler that leaves the limiters alone. *)
Definition keeps_limiters (next : Request → Prog unit) : Prop :=
  ∀ env r σ,
    heap (serve next env r σ).2 = heap σ ∧
    ipLimiterMap (serve next env r σ).2 = ipLimiterMap σ.

(** A handler that never answers too-many-requests itself. *)
Definition never_rejects (next : Request → Prog unit) : Prop :=
  ∀ env r σ, rejected (serve next env r σ).1 = false.

(** ** Counting what a request did *)

Definition is_cacheRead (ev : Event) : bool :=
  match ev with EvRedisGet _ => true | _ => false end.

Definition is_cacheWrite (ev : Event) : bool :=
  match ev with EvRedisSet _ _ _ => true | _ => false end.

Definition is_fetch (ev : Event) : bool :=
  match ev with EvHttpDo _ => true | _ => false end.

Definition is_getenv (ev : Event) : bool :=
  match ev with EvGetenv _ => true | _ => false end.

Definition is_newLimiter (ev : Event) : bool :=
  match ev with EvNewLimiter _ => true | _ => false end.

Definition count (p : Event → bool) (evs : list Event) : nat :=
  length (List.filter p evs).

(** The events a request added to the log. *)
Definition new_events (σ σ' : World) : list Event :=
  drop (length (log σ)) (log σ').

(** The same environment with another process environment. *)
Definition with_environ (env : Env) (f : string → string) : Env :=
  mkEnv (now env) f (redisGetErr env) (redisSetErr env)
        (redisSetApplied env) (newRequestErr env) (upstream env).

(** ** Requests in flight at the same time

    [net/http] runs every request in a goroutine of its own.  A request
    in flight is the rest of its handler; a step runs the next primitive
    operation of one of them on the shared world.  Nothing in
    [rateLimiterMiddleware] holds a lock, so the steps of two requests
    can follow one another in any order.

    A step is one whole operation on a consistent world: a map lookup
    or a map store is taken as indivisible and always returns.  The Go
    map is not synchronised, and the Go runtime may abort the process
    when two of its operations overlap in time (fatal error: concurrent
    map writes).  Such runs, and anything at a finer grain than one
    operation, are not represented here: an interleaving is a run in
    which the operations did not overlap.  What is proved over
    [interleave] therefore shows that a run exists, never that every
    run of the program is of that kind. *)
Record Thread : Type := mkThread {
  t_env : Env;
  t_prog : Prog unit;
  t_w : ResponseWriter
}.

Definition spawn (h : Request → Prog unit) (env : Env) (r : Request) : Thread :=
  mkThread env (h r) newResponseWriter.

Definition step (i : nat) (c : list Thread * World) : list Thread * World :=
  let '(pool, σ) := c in
  match pool !! i with
  | Some th =>
      match t_prog th with
      | Ret _ => c
      | Vis e k =>
          let '(x, (σ', w')) := handle (t_env th) e (σ, t_w th) in
          (<[i := mkThread (t_env th) (k x) w']> pool, σ')
      end
  | None => c
  end.

Definition interleave (sched : list nat) (c : list Thread * World)
    : list Thread * World :=
  foldl (λ c i, step i c) c sched.

Definition finished (th : Thread) : bool :=
  match t_prog th with Ret _ => true | Vis _ _ => false end.

(** ** Sample instances

    Stand-ins for the library functions and a few environments and
    requests, used to run the handlers on concrete inputs. *)
Module Sample.

(** Splits at the last colon (addresses without brackets). *)
Fixpoint splitLast (s : string) : option (string * string) :=
  match s with
  | EmptyString => None
  | String c rest =>
      match splitLast rest with
      | Some (host, port) => Some (String c host, port)
      | None => if decide (c = ":"%char) then Some ("", rest) else None
      end
  end.

Definition SplitHostPort (s : string) : result (string * string) :=
  match splitLast s with
  | Some hp => Ok hp
  | None => Err ("address " ++ s ++ ": missing port in address")
  end.

Definition json_Unmarshal (body : string) : result Weather :=
  if decide (body = "not json") then Err "invalid character"
  else Ok (mkWeather 0%float 0%float body "" "" []).

Definition json_Marshal (w : Weather) : result string :=
  Ok (ResolvedAddress w).

Definition environ (name : string) : string :=
  if decide (name = "API_KEY") then "K" else "".

Definition respond (code : Z) (body : string) (url : string)
    : result HttpResponse :=
  Ok (mkHttpResponse code (Ok body)).

(** All is well: key set, Redis reachable, upstream answers 200. *)
Definition env_ok (t : Z) : Env :=
  mkEnv t environ None None false (λ _, None) (respond 200 "sunny").

Definition env_set_fails (t : Z) : Env :=
  mkEnv t environ None (Some "i/o timeout") false (λ _, None) (respond 200 "sunny").

Definition env_no_key (t : Z) : Env :=
  mkEnv t (λ _, "") None None false (λ _, None) (respond 200 "sunny").


Definition request (addr country : string) : Request :=
  mkRequest addr {["country" := [country]]}.


Definition redisMiddleware : Request → Prog unit :=
  redisMiddleware json_Unmarshal json_Marshal.

Definition weatherHandler : Request → Prog unit :=
  weatherHandler SplitHostPort json_Unmarshal json_Marshal.

End Sample.

(** ** More observations *)

(** The events of the admission part of a request: what [getIP] prints
    and what the limiter map and the limiters do. *)
Definition is_admission (ev : Event) : bool :=
  match ev with
  | EvMapLookup _ _ | EvMapStore _ _ | EvNewLimiter _ | EvAllow _ _
  | EvPrintln _ => true
  | _ => false
  end.

(** The lookup key as [getWeatherValue] puts it into the URL. *)
Definition defaulted (country : string) : string :=
  if decide (country = "") then "maltepe" else country.

(** Instants at least [gap] nanoseconds apart, one after the other. *)
Fixpoint spaced (gap : Z) (times : list Z) : Prop :=
  match times with
  | t :: rest =>
      match rest with
      | t' :: _ => t + gap ≤ t' ∧ spaced gap rest
      | [] => True
      end
  | [] => True
  end.

(** The bucket of a client, if it has one, is of the configured rate
    and burst and within range. *)
Definition configured (limit : Q) (b : Z) (o : option rate.Limiter) : Prop :=
  match o with
  | None => True
  | Some lim =>
      rate.limit lim = limit ∧ rate.burst lim = b ∧ rate.in_range lim
  end.

(** One limiter for every mapped identifier, and no other. *)
Definition one_each (σ : World) : Prop :=
  wf σ ∧ length (heap σ) = size (ipLimiterMap σ).

(** * Properties *)

(** ** Programs *)

Lemma run_bind {A B : Type} (env : Env) (m : Prog A) (f : A → Prog B)
    (s : World * ResponseWriter) :
  run env (m ≫= f) s = let '(a, s') := run env m s in run env (f a) s'.
Proof.
  revert s. induction m as [a | X e k IH]; intros s; [reflexivity |].
  change (run env (Vis e (λ x, k x ≫= f)) s
          = (let '(a, s') := run env (Vis e k) s in run env (f a) s')).
  simpl. destruct (handle env e s) as [x s']. apply IH.
Qed.

(** ** The token bucket *)

Section RateFacts.
Import rate.
Local Open Scope Q_scope.

(** Refill is additive, never negative, and grows with the time. *)
Lemma tokensFromDuration_add r (a b : Z) :
  tokensFromDuration r (a + b) == tokensFromDuration r a + tokensFromDuration r b.
Proof.
  unfold tokensFromDuration. destruct (Qle_bool r 0); [ring |].
  rewrite !Qmake_Qdiv, inject_Z_plus. field.
Qed.

Lemma tokensFromDuration_nonneg r (d : Z) :
  0 <= r -> (0 <= d)%Z -> 0 <= tokensFromDuration r d.
Proof.
  intros Hr Hd. unfold tokensFromDuration.
  destruct (Qle_bool r 0); [lra |].
  apply Qmult_le_0_compat; [| exact Hr].
  unfold Qle; simpl. lia.
Qed.

Lemma tokensFromDuration_mono r (a b : Z) :
  0 <= r -> (a <= b)%Z -> tokensFromDuration r a <= tokensFromDuration r b.
Proof.
  intros Hr Hab.
  replace b with (a + (b - a))%Z by lia.
  rewrite tokensFromDuration_add.
  pose proof (tokensFromDuration_nonneg r (b - a) Hr ltac:(lia)). lra.
Qed.

(** Bounds on the bucket after the refill. *)
Lemma advance_le_burst t lim : advance t lim <= inject_Z (burst lim).
Proof.
  unfold advance. 
  destruct (Qle_bool _ _) eqn:E; [apply Qle_bool_iff in E; exact E | lra].
Qed.

Lemma advance_ge t lim (q : Q) :
  0 <= limit lim -> q <= tokens lim -> q <= inject_Z (burst lim) ->
  q <= advance t lim.
Proof.
  intros Hr Hq Hb. unfold advance.
  set (el := if (t <? last lim)%Z then 0%Z else (t - last lim)%Z).
  assert (0 <= el)%Z by (subst el; destruct (Z.ltb_spec t (last lim)); lia).
  pose proof (tokensFromDuration_nonneg (limit lim) el Hr H).
  destruct (Qle_bool _ _); lra.
Qed.

Lemma advance_le_refill t lim :
  (last lim <= t)%Z ->
  advance t lim <= tokens lim + tokensFromDuration (limit lim) (t - last lim).
Proof.
  intros Ht. unfold advance.
  destruct (Z.ltb_spec t (last lim)); [lia |].
  destruct (Qle_bool _ _) eqn:E; [lra |].
  apply not_true_iff_false in E. rewrite Qle_bool_iff in E. lra.
Qed.


(** What one [Allow] does to each field, and when it says yes. *)
Lemma Allow_limit t lim : limit (Allow t lim).2 = limit lim.
Proof. unfold Allow. destruct (Qle_bool _ _); reflexivity. Qed.

Lemma Allow_burst t lim : burst (Allow t lim).2 = burst lim.
Proof. unfold Allow. destruct (Qle_bool _ _); reflexivity. Qed.

Lemma Allow_last t lim : last (Allow t lim).2 = t.
Proof. unfold Allow. destruct (Qle_bool _ _); reflexivity. Qed.

Lemma Allow_true t lim :
  (Allow t lim).1 = true <-> 1 <= advance t lim.
Proof.
  unfold Allow. destruct (Qle_bool _ _) eqn:E; simpl.
  - apply Qle_bool_iff in E. tauto.
  - apply not_true_iff_false in E. rewrite Qle_bool_iff in E.
    split; [discriminate | tauto].
Qed.

Lemma Allow_tokens t lim :
  tokens (Allow t lim).2 ==
  if (Allow t lim).1 then advance t lim - 1 else advance t lim.
Proof. unfold Allow. destruct (Qle_bool _ _); reflexivity. Qed.

Lemma NewLimiter_in_range r b : (0 <= b)%Z -> in_range (NewLimiter r b).
Proof.
  intros Hb. unfold in_range; simpl. split; [| lra].
  unfold Qle; simpl. lia.
Qed.

Lemma Allow_in_range t lim :
  0 <= limit lim -> in_range lim -> in_range (Allow t lim).2.
Proof.
  intros Hr [H0 Hb]. unfold in_range.
  rewrite Allow_burst, Allow_tokens.
  pose proof (advance_le_burst t lim).
  pose proof (advance_ge t lim 0 Hr H0 ltac:(lra)).
  destruct (Allow t lim).1 eqn:E; [| lra].
  apply Allow_true in E. lra.
Qed.

(** A burst inside a window too short to earn one token: with [k] whole
    tokens in the bucket, [k] calls pass and the next one does not. *)
Lemma AllowAll_window (r : Q) (t0 : Z) (times : list Z) :
  0 <= r ->
  forall (k : nat) (lim : Limiter),
    limit lim = r ->
    inject_Z (Z.of_nat k) <= inject_Z (burst lim) ->
    (forall t, head times = Some t -> inject_Z (Z.of_nat k) <= advance t lim) ->
    (forall t, t ∈ times ->
       (t0 <= t)%Z /\ tokensFromDuration r (t - t0) < 1 /\
       advance t lim <= inject_Z (Z.of_nat k) + tokensFromDuration r (t - t0)) ->
    StronglySorted Z.le times ->
    length times = S k ->
    (AllowAll times lim).1 = (replicate k true ++ [false])%list.
Proof.
  intros Hr. induction times as [| t rest IH]; intros k lim Hl Hkb Hkt Hin Hs Hlen;
    [discriminate |].
  simpl in Hlen. injection Hlen as Hlen.
  destruct (Hin t ltac:(left)) as (Ht0 & Hw & Ha).
  assert (Hge : inject_Z (Z.of_nat k) <= advance t lim)
    by (apply Hkt; reflexivity).
  simpl. destruct (Allow t lim) as [ok lim'] eqn:EA.
  destruct (AllowAll rest lim') as [oks lim''] eqn:ER. simpl.
  assert (Eok : (Allow t lim).1 = ok) by (rewrite EA; reflexivity).
  assert (Elim : (Allow t lim).2 = lim') by (rewrite EA; reflexivity).
  destruct k as [| k].
  - destruct rest; [| discriminate]. simpl in ER. injection ER as <- <-.
    change (inject_Z (Z.of_nat 0)) with 0 in Ha.
    destruct ok; [| reflexivity].
    apply Allow_true in Eok. lra.
  - assert (Hk : inject_Z (Z.of_nat (S k)) == inject_Z (Z.of_nat k) + 1).
    { rewrite Nat2Z.inj_succ. unfold Z.succ. rewrite inject_Z_plus. reflexivity. }
    assert (Hpos : 0 <= inject_Z (Z.of_nat k)) by (unfold Qle; simpl; lia).
    assert (ok = true) as ->.
    { rewrite <- Eok. apply Allow_true. lra. }
    simpl. f_equal.
    assert (Hl' : limit lim' = r) by (rewrite <- Elim, Allow_limit; exact Hl).
    assert (Hb' : burst lim' = burst lim) by (rewrite <- Elim; apply Allow_burst).
    assert (Hlast' : last lim' = t) by (rewrite <- Elim; apply Allow_last).
    assert (Htok' : tokens lim' == advance t lim - 1)
      by (rewrite <- Elim, Allow_tokens, Eok; reflexivity).
    specialize (IH k lim').
    rewrite ER in IH. simpl in IH. apply IH; clear IH.
    + exact Hl'.
    + rewrite Hb'. lra.
    + intros t' _. apply advance_ge; [rewrite Hl'; exact Hr | lra |].
      rewrite Hb'. lra.
    + intros t' Ht'. destruct (Hin t' ltac:(right; exact Ht')) as (Ht0' & Hw' & _).
      split; [exact Ht0' |]. split; [exact Hw' |].
      apply StronglySorted_inv in Hs as [_ Hall].
      rewrite Forall_forall in Hall. specialize (Hall t' Ht').
      pose proof (advance_le_refill t' lim') as Hre.
      rewrite Hlast', Hl' in Hre. specialize (Hre Hall).
      replace (t' - t0)%Z with ((t - t0) + (t' - t))%Z by lia.
      rewrite tokensFromDuration_add. lra.
    + apply StronglySorted_inv in Hs as [Hs _]. exact Hs.
    + exact Hlen.
Qed.


(** After a wait that earns at least one token, a call passes. *)
Lemma Allow_after_wait (t : Z) (lim : Limiter) :
  0 <= limit lim -> in_range lim -> (1 <= burst lim)%Z ->
  (last lim <= t)%Z ->
  1 <= tokensFromDuration (limit lim) (t - last lim) ->
  (Allow t lim).1 = true.
Proof.
  intros Hr [H0 Hb] Hb1 Hlast Hwait. apply Allow_true. unfold advance.
  destruct (Z.ltb_spec t (last lim)); [lia |].
  assert (1 <= inject_Z (burst lim)) by (unfold Qle; simpl; lia).
  destruct (Qle_bool _ _); lra.
Qed.

(** The same over a run of calls. *)
Lemma AllowAll_limit times : forall lim, limit (AllowAll times lim).2 = limit lim.
Proof.
  induction times as [| t rest IH]; intros lim; [reflexivity |].
  simpl. destruct (Allow t lim) as [ok lim1] eqn:E.
  specialize (IH lim1). destruct (AllowAll rest lim1) as [oks lim2].
  simpl in *. rewrite IH. change lim1 with (ok, lim1).2. rewrite <- E.
  apply Allow_limit.
Qed.

Lemma AllowAll_burst times : forall lim, burst (AllowAll times lim).2 = burst lim.
Proof.
  induction times as [| t rest IH]; intros lim; [reflexivity |].
  simpl. destruct (Allow t lim) as [ok lim1] eqn:E.
  specialize (IH lim1). destruct (AllowAll rest lim1) as [oks lim2].
  simpl in *. rewrite IH. change lim1 with (ok, lim1).2. rewrite <- E.
  apply Allow_burst.
Qed.

Lemma AllowAll_in_range times :
  forall lim, 0 <= limit lim -> in_range lim -> in_range (AllowAll times lim).2.
Proof.
  induction times as [| t rest IH]; intros lim Hr Hin; [exact Hin |].
  simpl. destruct (Allow t lim) as [ok lim1] eqn:E.
  assert (E1 : (Allow t lim).2 = lim1) by (rewrite E; reflexivity).
  specialize (IH lim1). destruct (AllowAll rest lim1) as [oks lim2].
  simpl in *. apply IH; rewrite <- E1.
  - rewrite Allow_limit. exact Hr.
  - apply Allow_in_range; assumption.
Qed.

End RateFacts.

Lemma AllowAll_last_time (times : list Z) (tn : Z) :
  ∀ lim, last times = Some tn → rate.last (rate.AllowAll times lim).2 = tn.
Proof.
  induction times as [| t1 rest IH]; intros lim Hl; [discriminate |].
  simpl. destruct (rate.Allow t1 lim) as [ok lim1] eqn:E.
  assert (E1 : (rate.Allow t1 lim).2 = lim1) by (rewrite E; reflexivity).
  specialize (IH lim1). destruct (rate.AllowAll rest lim1) as [oks lim2] eqn:ER.
  simpl in *. destruct rest as [| t2 rest].
  - simpl in ER. injection ER as _ <-. injection Hl as <-.
    rewrite <- E1. apply Allow_last.
  - apply IH. exact Hl.
Qed.

(** In a sorted list every element lies between the first and the last. *)
Lemma sorted_bounds (times : list Z) (t1 tn : Z) :
  StronglySorted Z.le times → head times = Some t1 → last times = Some tn →
  ∀ t, t ∈ times → t1 ≤ t ≤ tn.
Proof.
  intros Hs. revert t1. induction Hs as [| a rest Hs IH Hall]; intros t1 Hh Hl t Hin;
    [discriminate |].
  injection Hh as <-. rewrite Forall_forall in Hall.
  destruct rest as [| b rest].
  - injection Hl as <-. apply list_elem_of_singleton in Hin as ->. lia.
  - specialize (IH b eq_refl Hl).
    apply elem_of_cons in Hin as [-> | Hin].
    + specialize (IH b ltac:(left)). specialize (Hall b ltac:(left)). lia.
    + specialize (IH t Hin). specialize (Hall t Hin). lia.
Qed.

Section HandlerFacts.
Variable SplitHostPort : string → result (string * string).
Variable json_Unmarshal : string → result Weather.
Variable json_Marshal : Weather → result string.

#[local] Abbreviation getIP := (getIP SplitHostPort).
#[local] Abbreviation clientID := (clientID SplitHostPort).
#[local] Abbreviation getIP_log := (getIP_log SplitHostPort).
#[local] Abbreviation rateLimiterMiddleware := (rateLimiterMiddleware SplitHostPort).
#[local] Abbreviation redisMiddleware := (redisMiddleware json_Unmarshal json_Marshal).

(** *** The handlers, run

    Each handler of main.go is run once and for all here; the claims
    below are read off these equations. *)

Lemma run_getIP env r σ w :
  run env (getIP r) (σ, w) = (clientID r, (add_log σ (getIP_log r), w)).
Proof.
  unfold getIP, clientID, getIP_log, add_log.
  destruct (SplitHostPort (RemoteAddr r)) as [[host port] | err]; simpl.
  - rewrite app_nil_r. destruct σ; reflexivity.
  - reflexivity.
Qed.

(** A request of a client with no limiter yet: a limiter is allocated
    at the end of the heap and stored, and its [Allow] decides. *)
Lemma serve_first_sight next limit burst env r σ :
  ipLimiterMap σ !! clientID r = None →
  serve (rateLimiterMiddleware next limit burst) env r σ =
    let ip := clientID r in
    let l := length (heap σ) in
    let '(ok, lim') := rate.Allow (now env) (rate.NewLimiter limit burst) in
    let σ1 := mkWorld (heap σ ++ [lim']) (<[ip := l]> (ipLimiterMap σ)) (redisDB σ)
                (log σ ++ getIP_log r ++
                   [EvMapLookup ip None; EvNewLimiter l; EvMapStore ip l; EvAllow l ok]) in
    if ok then serve next env r σ1 else (tooManyRequestsResponse, σ1).
Proof.
  intros Hnone. unfold serve, rateLimiterMiddleware.
  rewrite run_bind, run_getIP.
  unfold mbind, Prog_bind, mret, Prog_ret, trigger. simpl.
  rewrite Hnone. simpl.
  rewrite lookup_app_r, Nat.sub_diag by reflexivity. simpl.
  destruct (rate.Allow (now env) (rate.NewLimiter limit burst)) as [ok lim'].
  rewrite insert_app_r_alt, Nat.sub_diag by reflexivity. simpl.
  rewrite <- !app_assoc. simpl.
  destruct ok; reflexivity.
Qed.

(** A request of a client with a limiter: that limiter's [Allow]
    decides, and it is updated in place. *)
Lemma serve_known next limit burst env r σ l lim :
  ipLimiterMap σ !! clientID r = Some l →
  heap σ !! l = Some lim →
  serve (rateLimiterMiddleware next limit burst) env r σ =
    let ip := clientID r in
    let '(ok, lim') := rate.Allow (now env) lim in
    let σ1 := mkWorld (<[l := lim']> (heap σ)) (ipLimiterMap σ) (redisDB σ)
                (log σ ++ getIP_log r ++ [EvMapLookup ip (Some l); EvAllow l ok]) in
    if ok then serve next env r σ1 else (tooManyRequestsResponse, σ1).
Proof.
  intros Hsome Hheap. unfold serve, rateLimiterMiddleware.
  rewrite run_bind, run_getIP.
  unfold mbind, Prog_bind, mret, Prog_ret, trigger. simpl.
  rewrite Hsome. simpl. rewrite Hheap.
  destruct (rate.Allow (now env) lim) as [ok lim'].
  rewrite <- !app_assoc. simpl.
  destruct ok; reflexivity.
Qed.


#[local] Abbreviation getWeatherValue := (getWeatherValue json_Unmarshal).
#[local] Abbreviation fetched := (fetched json_Unmarshal).
#[local] Abbreviation fetch_log := (fetch_log json_Unmarshal).

Lemma run_getWeatherValue env country key σ w :
  run env (getWeatherValue country key) (σ, w) =
    (fetched env country key, (add_log σ (fetch_log env country key), w)).
Proof.
  unfold fetched, fetch_log, getWeatherValue, add_log.
  unfold mbind, Prog_bind, mret, Prog_ret, trigger.
  destruct (decide (key = "")); simpl.
  { rewrite app_nil_r. destruct σ; reflexivity. }
  destruct (newRequestErr env _); simpl.
  { rewrite app_nil_r. destruct σ; reflexivity. }
  destruct (upstream env _) as [res | err]; simpl; [| reflexivity].
  destruct (Body res); simpl; [| reflexivity].
  destruct (negb _); simpl; [reflexivity |].
  destruct (json_Unmarshal _); reflexivity.
Qed.

Ltac done_running :=
  simpl; unfold add_log, with_log, okResponse; simpl;
  rewrite <- ?app_assoc; reflexivity.

Lemma run_getRedisValue env key σ w :
  run env (getRedisValue key) (σ, w) =
    (cached env σ key, (add_log σ [EvRedisGet key], w)).
Proof.
  reflexivity.
Qed.

Lemma run_http_Error env msg σ :
  run env (http_Error msg StatusInternalServerError) (σ, newResponseWriter) =
    (tt, (σ, errorResponse msg)).
Proof. reflexivity. Qed.

(** [redisMiddleware] on a fresh response writer, branch by branch. *)
Lemma serve_redisMiddleware env r σ :
  serve redisMiddleware env r σ =
    let country := Query_Get r "country" in
    match cached env σ country with
    | Ok val =>
        (okResponse val, add_log σ [EvRedisGet country; EvPrintln "Yes redis"])
    | Err _ =>
        let key := environ env "API_KEY" in
        let pre := [EvRedisGet country; EvGetenv "API_KEY"] in
        if decide (key = "") then
          (errorResponse "Api key could not found", add_log σ pre)
        else
          let evs := (pre ++ fetch_log env country key)%list in
          match fetched env country key with
          | Err err =>
              (errorResponse ("getWeatherValue Error : " ++ err), add_log σ evs)
          | Ok weather =>
              match json_Marshal weather with
              | Err _ => (errorResponse "Error marshalling JSON", add_log σ evs)
              | Ok data =>
                  let set := EvRedisSet country data (5 * Minute) in
                  let written :=
                    <[country := mkCacheEntry data (now env) (5 * Minute)]>
                      (redisDB σ) in
                  match redisSetErr env with
                  | Some _ =>
                      (errorResponse "Error setting value in Redis",
                       mkWorld (heap σ) (ipLimiterMap σ)
                         (if redisSetApplied env then written else redisDB σ)
                         (log σ ++ evs ++ [set]))
                  | None =>
                      (okResponse data,
                       mkWorld (heap σ) (ipLimiterMap σ) written
                         (log σ ++ evs ++ [set; EvPrintln "No redis"]))
                  end
              end
          end
    end.
Proof.
  unfold serve, redisMiddleware.
  change (run env (getRedisValue (Query_Get r "country") ≫= ?k) ?s)
    with (run env (getRedisValue (Query_Get r "country") ≫= k) s).
  rewrite run_bind, run_getRedisValue.
  destruct (cached env σ (Query_Get r "country")) as [val | e].
  { done_running. }
  cbv zeta.
  change (run env (trigger (Getenv "API_KEY") ≫= ?k) ?s)
    with (run env (k (environ env "API_KEY"))
            (with_log (add_log σ [EvRedisGet (Query_Get r "country")])
               (EvGetenv "API_KEY"), newResponseWriter)).
  cbv beta.
  destruct (decide (environ env "API_KEY" = "")) as [Hk | Hk].
  { rewrite run_http_Error. done_running. }
  rewrite run_bind, run_getWeatherValue.
  destruct (fetched env _ _) as [weather | err].
  2: { rewrite run_http_Error. done_running. }
  destruct (json_Marshal weather) as [data | err].
  2: { rewrite run_http_Error. done_running. }
  unfold setRedisValue, mbind, Prog_bind, trigger. simpl. unfold redis_Set.
  destruct (redisSetErr env) as [err |].
  - rewrite run_http_Error. done_running.
  - done_running.
Qed.

(** *** Limiters across requests *)

Lemma bucket_frame σ σ' ip :
  heap σ' = heap σ → ipLimiterMap σ' = ipLimiterMap σ →
  bucket σ' ip = bucket σ ip.
Proof. intros Hh Hm. unfold bucket. rewrite Hh, Hm. reflexivity. Qed.

Lemma wf_frame σ σ' :
  heap σ' = heap σ → ipLimiterMap σ' = ipLimiterMap σ → wf σ → wf σ'.
Proof. intros Hh Hm. unfold wf. rewrite Hh, Hm. tauto. Qed.

Lemma serve_frame next env r σ :
  keeps_limiters next →
  heap (serve next env r σ).2 = heap σ ∧
  ipLimiterMap (serve next env r σ).2 = ipLimiterMap σ.
Proof. intros Hk. apply Hk. Qed.

Lemma wf_alloc σ ip lim evs :
  wf σ → ipLimiterMap σ !! ip = None →
  wf (mkWorld (heap σ ++ [lim]) (<[ip := length (heap σ)]> (ipLimiterMap σ))
        (redisDB σ) evs).
Proof.
  intros [Hlt Hinj] Hnone. split; simpl.
  - intros ip0 l0. rewrite lookup_insert. rewrite length_app. simpl.
    destruct (decide (ip = ip0)) as [-> | Hne].
    + intros [= <-]. lia.
    + intros H0. apply Hlt in H0. lia.
  - intros ip1 ip2 l0. rewrite !lookup_insert.
    destruct (decide (ip = ip1)) as [<- | Hne1];
      destruct (decide (ip = ip2)) as [<- | Hne2]; try done.
    + intros [= <-] H2. apply Hlt in H2. lia.
    + intros H1 [= <-]. apply Hlt in H1. lia.
    + apply Hinj.
Qed.

Lemma wf_update σ l lim evs :
  wf σ →
  wf (mkWorld (<[l := lim]> (heap σ)) (ipLimiterMap σ) (redisDB σ) evs).
Proof.
  intros [Hlt Hinj]. split; simpl.
  - intros ip0 l0 H0. rewrite length_insert. eapply Hlt, H0.
  - exact Hinj.
Qed.

(** One request through the limiter, seen from the buckets: the client's
    bucket (a fresh one on first sight) takes one [Allow], every other
    bucket is left as it was, and the request is turned away exactly when
    [Allow] says no. *)
Lemma serve_bucket next limit burst env r σ :
  keeps_limiters next → never_rejects next → wf σ →
  let ip := clientID r in
  let lim := default (rate.NewLimiter limit burst) (bucket σ ip) in
  let res := serve (rateLimiterMiddleware next limit burst) env r σ in
  wf res.2 ∧
  bucket res.2 ip = Some (rate.Allow (now env) lim).2 ∧
  (∀ ip', ip' ≠ ip → bucket res.2 ip' = bucket σ ip') ∧
  rejected res.1 = negb (rate.Allow (now env) lim).1 ∧
  (rejected res.1 = true → res.1 = tooManyRequestsResponse).
Proof.
  intros Hk Hn Hwf ip lim res.
  destruct (ipLimiterMap σ !! ip) as [l |] eqn:Hmap.
  - destruct Hwf as [Hlt Hinj].
    destruct (lookup_lt_is_Some_2 (heap σ) l (Hlt _ _ Hmap)) as [lim0 Hheap].
    assert (Hb : bucket σ ip = Some lim0)
      by (unfold bucket; rewrite Hmap; exact Hheap).
    subst res lim. rewrite Hb. simpl.
    rewrite (serve_known _ _ _ _ _ _ l lim0 Hmap Hheap). cbv zeta.
    destruct (rate.Allow (now env) lim0) as [ok lim'] eqn:EA. simpl.
    set (σ1 := mkWorld (<[l:=lim']> (heap σ)) _ _ _).
    assert (Hwf1 : wf σ1) by (apply wf_update; split; assumption).
    assert (Hb1 : bucket σ1 ip = Some lim').
    { unfold bucket, σ1; simpl. fold ip. rewrite Hmap. simpl.
      apply list_lookup_insert_eq. eapply Hlt, Hmap. }
    assert (Ho1 : ∀ ip', ip' ≠ ip → bucket σ1 ip' = bucket σ ip').
    { intros ip' Hne. unfold bucket, σ1; simpl.
      destruct (ipLimiterMap σ !! ip') as [l' |] eqn:Hmap'; [| reflexivity].
      simpl. apply list_lookup_insert_ne. intros ->.
      apply Hne. eapply Hinj; eassumption. }
    destruct ok.
    + destruct (serve_frame next env r σ1 Hk) as [Hh Hm].
      repeat split.
      * eapply wf_frame; eassumption.
      * eapply wf_frame; eassumption.
      * rewrite (bucket_frame σ1) by assumption. exact Hb1.
      * intros ip' Hne. rewrite (bucket_frame σ1) by assumption. auto.
      * apply Hn.
      * rewrite Hn. discriminate.
    + simpl. repeat split; try apply Hwf1; auto.
  - assert (Hb : bucket σ ip = None) by (unfold bucket; rewrite Hmap; reflexivity).
    subst res lim. rewrite Hb. simpl.
    rewrite (serve_first_sight _ _ _ _ _ _ Hmap). cbv zeta.
    destruct (rate.Allow (now env) (rate.NewLimiter limit burst)) as [ok lim'] eqn:EA.
    simpl.
    set (σ1 := mkWorld (heap σ ++ [lim']) _ _ _).
    assert (Hwf1 : wf σ1) by (apply wf_alloc; assumption).
    assert (Hb1 : bucket σ1 ip = Some lim').
    { unfold bucket, σ1; simpl. fold ip. rewrite lookup_insert_eq. simpl.
      rewrite lookup_app_r, Nat.sub_diag by reflexivity. reflexivity. }
    assert (Ho1 : ∀ ip', ip' ≠ ip → bucket σ1 ip' = bucket σ ip').
    { intros ip' Hne. unfold bucket, σ1; simpl. fold ip.
      rewrite lookup_insert_ne by congruence.
      destruct (ipLimiterMap σ !! ip') as [l' |] eqn:Hmap'; [| reflexivity].
      simpl. apply lookup_app_l. eapply Hwf, Hmap'. }
    destruct ok.
    + destruct (serve_frame next env r σ1 Hk) as [Hh Hm].
      repeat split.
      * eapply wf_frame; eassumption.
      * eapply wf_frame; eassumption.
      * rewrite (bucket_frame σ1) by assumption. exact Hb1.
      * intros ip' Hne. rewrite (bucket_frame σ1) by assumption. auto.
      * apply Hn.
      * rewrite Hn. discriminate.
    + simpl. repeat split; try apply Hwf1; auto.
Qed.


Lemma redisMiddleware_keeps_limiters : keeps_limiters redisMiddleware.
Proof.
  intros env r σ. rewrite serve_redisMiddleware. cbv zeta.
  destruct (cached _ _ _); [split; reflexivity |].
  destruct (decide _); [split; reflexivity |].
  destruct (fetched _ _ _); [| split; reflexivity].
  destruct (json_Marshal _); [| split; reflexivity].
  destruct (redisSetErr env); split; reflexivity.
Qed.

Lemma redisMiddleware_never_rejects : never_rejects redisMiddleware.
Proof.
  intros env r σ. rewrite serve_redisMiddleware. cbv zeta.
  destruct (cached _ _ _); [reflexivity |].
  destruct (decide _); [reflexivity |].
  destruct (fetched _ _ _); [| reflexivity].
  destruct (json_Marshal _); [| reflexivity].
  destruct (redisSetErr env); reflexivity.
Qed.


Lemma serveAll_cons h env r rest σ :
  serveAll h ((env, r) :: rest) σ =
    ((serve h env r σ).1 :: (serveAll h rest (serve h env r σ).2).1,
     (serveAll h rest (serve h env r σ).2).2).
Proof.
  simpl. destruct (serve h env r σ) as [w σ1]. simpl.
  destruct (serveAll h rest σ1); reflexivity.
Qed.

Lemma AllowAll_cons t times lim :
  rate.AllowAll (t :: times) lim =
    ((rate.Allow t lim).1 :: (rate.AllowAll times (rate.Allow t lim).2).1,
     (rate.AllowAll times (rate.Allow t lim).2).2).
Proof.
  simpl. destruct (rate.Allow t lim) as [ok lim1]. simpl.
  destruct (rate.AllowAll times lim1); reflexivity.
Qed.

(** Requests of one client, served in a row, are decided by the calls of
    [Allow] on that client's bucket at the instants of the requests. *)
Lemma serveAll_same_client next limit burst ip reqs :
  keeps_limiters next → never_rejects next →
  Forall (λ er, clientID er.2 = ip) reqs →
  ∀ σ, wf σ →
    let lim := default (rate.NewLimiter limit burst) (bucket σ ip) in
    let res := serveAll (rateLimiterMiddleware next limit burst) reqs σ in
    let out := rate.AllowAll ((λ er, now er.1) <$> reqs) lim in
    wf res.2 ∧
    default (rate.NewLimiter limit burst) (bucket res.2 ip) = out.2 ∧
    rejected <$> res.1 = negb <$> out.1 ∧
    Forall (λ w, rejected w = true → w = tooManyRequestsResponse) res.1 ∧
    (∀ ip', ip' ≠ ip → bucket res.2 ip' = bucket σ ip').
Proof.
  intros Hk Hn Hall. induction Hall as [| [env r] rest Hip Hall IH]; intros σ Hwf.
  { simpl. auto. }
  cbv zeta. rewrite serveAll_cons, fmap_cons, AllowAll_cons. simpl in Hip.
  cbn [fst snd].
  destruct (serve_bucket next limit burst env r σ Hk Hn Hwf)
    as (Hwf1 & Hb1 & Ho1 & Hr1 & Hw1).
  rewrite Hip in Hb1, Ho1, Hr1.
  specialize (IH _ Hwf1). cbv zeta in IH. rewrite Hb1 in IH.
  cbn [default from_option id] in IH.
  destruct IH as (Hwf2 & Hb2 & Hr2 & Hw2 & Ho2).
  split; [exact Hwf2 |]. split; [exact Hb2 |]. split; [| split].
  - rewrite !fmap_cons, Hr1, Hr2. reflexivity.
  - constructor; assumption.
  - intros ip' Hne. rewrite Ho2, Ho1 by assumption. reflexivity.
Qed.

(** Every world reached from a well-formed one is well-formed. *)
Lemma serveAll_wf next limit burst reqs :
  keeps_limiters next → never_rejects next →
  ∀ σ, wf σ → wf (serveAll (rateLimiterMiddleware next limit burst) reqs σ).2.
Proof.
  intros Hk Hn. induction reqs as [| [env r] rest IH]; intros σ Hwf;
    [exact Hwf |].
  rewrite serveAll_cons. cbn [snd]. apply IH.
  apply (serve_bucket next limit burst env r σ Hk Hn Hwf).
Qed.



(** *** What one run of [redisMiddleware] logs *)

Lemma new_events_add_log σ evs : new_events σ (add_log σ evs) = evs.
Proof. unfold new_events, add_log; simpl. apply drop_app_length. Qed.

Lemma new_events_mkWorld σ h m db evs :
  new_events σ (mkWorld h m db (log σ ++ evs)) = evs.
Proof. unfold new_events; simpl. apply drop_app_length. Qed.

Lemma fetch_log_cases env country key :
  fetch_log env country key = [] ∨
  fetch_log env country key =
    [EvHttpDo (weatherURL (if decide (country = "") then "maltepe" else country)
                          key)].
Proof.
  unfold fetch_log, getWeatherValue, mbind, Prog_bind, mret, Prog_ret, trigger.
  destruct (decide (key = "")); simpl; [left; reflexivity |].
  destruct (newRequestErr env _); simpl; [left; reflexivity |].
  right.
  destruct (upstream env _) as [res | err]; simpl; [| reflexivity].
  destruct (Body res); simpl; [| reflexivity].
  destruct (negb _); simpl; [reflexivity |].
  destruct (json_Unmarshal _); reflexivity.
Qed.

Lemma count_fetch_log p env country key :
  (∀ url, p (EvHttpDo url) = false) → count p (fetch_log env country key) = 0%nat.
Proof.
  intros Hp. destruct (fetch_log_cases env country key) as [-> | ->];
    [reflexivity |].
  unfold count; simpl. rewrite Hp. reflexivity.
Qed.

Lemma count_app p (evs1 evs2 : list Event) :
  count p (evs1 ++ evs2) = (count p evs1 + count p evs2)%nat.
Proof. unfold count. rewrite List.filter_app, length_app. reflexivity. Qed.


Lemma cached_frame env σ σ' key :
  redisDB σ' = redisDB σ → cached env σ' key = cached env σ key.
Proof.
  intros H. unfold cached, getRedisValue, trigger. simpl. rewrite H.
  reflexivity.
Qed.

(** The resolver reads of a request only its country, and of the world
    only Redis. *)
Lemma serve_redisMiddleware_frame env r1 r2 σ1 σ2 :
  Query_Get r1 "country" = Query_Get r2 "country" →
  redisDB σ1 = redisDB σ2 →
  (serve redisMiddleware env r1 σ1).1 = (serve redisMiddleware env r2 σ2).1 ∧
  redisDB (serve redisMiddleware env r1 σ1).2
    = redisDB (serve redisMiddleware env r2 σ2).2 ∧
  new_events σ1 (serve redisMiddleware env r1 σ1).2
    = new_events σ2 (serve redisMiddleware env r2 σ2).2.
Proof.
  intros Hq Hdb. rewrite !serve_redisMiddleware. cbv zeta.
  rewrite Hq, (cached_frame env σ2 σ1) by exact Hdb.
  destruct (cached env σ2 _); [| destruct (decide _);
    [| destruct (fetched env _ _);
       [destruct (json_Marshal _); [destruct (redisSetErr env) |] |]]];
    cbn [fst snd redisDB add_log]; unfold new_events; cbn [log add_log];
    rewrite !drop_app_length, ?Hdb; repeat split; reflexivity.
Qed.

(** A mapped location that is not allocated (no well-formed world has
    one) turns the request away. *)
Lemma serve_dangling next limit burst env r σ l :
  ipLimiterMap σ !! clientID r = Some l →
  heap σ !! l = None →
  serve (rateLimiterMiddleware next limit burst) env r σ =
    (tooManyRequestsResponse,
     add_log σ (getIP_log r ++
                  [EvMapLookup (clientID r) (Some l); EvAllow l false])).
Proof.
  intros Hsome Hheap. unfold serve, rateLimiterMiddleware.
  rewrite run_bind, run_getIP.
  unfold mbind, Prog_bind, mret, Prog_ret, trigger. simpl.
  rewrite Hsome. simpl. rewrite Hheap.
  done_running.
Qed.

Lemma count_getIP_log p r :
  (∀ line, p (EvPrintln line) = false) → count p (getIP_log r) = 0%nat.
Proof.
  intros Hp. unfold getIP_log. destruct (SplitHostPort _) as [hp | err];
    [reflexivity |].
  unfold count; simpl. rewrite Hp. reflexivity.
Qed.

(** The limiter's part of a request touches neither Redis nor the
    upstream; the request then ends with the too-many-requests response
    or goes on as [next] does. *)
Lemma serve_rateLimiter_cases next limit burst env r σ :
  ∃ σ1 evs,
    (serve (rateLimiterMiddleware next limit burst) env r σ
       = (tooManyRequestsResponse, σ1) ∨
     serve (rateLimiterMiddleware next limit burst) env r σ
       = serve next env r σ1) ∧
    log σ1 = (log σ ++ evs)%list ∧ redisDB σ1 = redisDB σ ∧
    count is_cacheRead evs = 0%nat ∧ count is_cacheWrite evs = 0%nat ∧
    count is_fetch evs = 0%nat.
Proof.
  assert (Hc : ∀ p tl, (∀ line, p (EvPrintln line) = false) →
            count p tl = 0%nat → count p (getIP_log r ++ tl) = 0%nat).
  { intros p tl Hp Htl. rewrite count_app, count_getIP_log, Htl by exact Hp.
    reflexivity. }
  destruct (ipLimiterMap σ !! clientID r) as [l |] eqn:Hmap.
  - destruct (heap σ !! l) as [lim |] eqn:Hheap.
    + rewrite (serve_known _ _ _ _ _ _ l lim Hmap Hheap). cbv zeta.
      destruct (rate.Allow (now env) lim) as [ok lim'].
      do 2 eexists. split; [destruct ok; [right | left]; reflexivity |].
      split; [reflexivity |]. split; [reflexivity |].
      repeat split; apply Hc; reflexivity.
    + rewrite (serve_dangling _ _ _ _ _ _ l Hmap Hheap).
      do 2 eexists. split; [left; reflexivity |].
      split; [reflexivity |]. split; [reflexivity |].
      repeat split; apply Hc; reflexivity.
  - rewrite (serve_first_sight _ _ _ _ _ _ Hmap). cbv zeta.
    destruct (rate.Allow (now env) _) as [ok lim'].
    do 2 eexists. split; [destruct ok; [right | left]; reflexivity |].
    split; [reflexivity |]. split; [reflexivity |].
    repeat split; apply Hc; reflexivity.
Qed.

Lemma redisMiddleware_log env r σ :
  ∃ evs,
    log (serve redisMiddleware env r σ).2 = (log σ ++ evs)%list ∧
    count is_cacheRead evs = 1%nat ∧ (count is_cacheWrite evs <= 1)%nat.
Proof.
  rewrite serve_redisMiddleware. cbv zeta.
  pose proof (count_fetch_log is_cacheRead env (Query_Get r "country")
                (environ env "API_KEY") ltac:(reflexivity)) as Hr.
  pose proof (count_fetch_log is_cacheWrite env (Query_Get r "country")
                (environ env "API_KEY") ltac:(reflexivity)) as Hw.
  assert (Hgo : ∀ tl,
            count is_cacheRead tl = 0%nat → (count is_cacheWrite tl <= 1)%nat →
            let evs := ([EvRedisGet (Query_Get r "country"); EvGetenv "API_KEY"]
                          ++ fetch_log env (Query_Get r "country")
                               (environ env "API_KEY") ++ tl)%list in
            count is_cacheRead evs = 1%nat ∧ (count is_cacheWrite evs <= 1)%nat).
  { intros tl H1 H2 evs. subst evs. rewrite !count_app, Hr, Hw, H1.
    split; [reflexivity |]. exact H2. }
  destruct (cached _ _ _).
  { eexists. split; [reflexivity |]. split; [reflexivity | unfold count; simpl; lia]. }
  destruct (decide _).
  { eexists. split; [reflexivity |]. split; [reflexivity | unfold count; simpl; lia]. }
  destruct (fetched _ _ _).
  2: { eexists. split; [simpl; rewrite <- (app_nil_r (fetch_log _ _ _)); reflexivity |].
       apply Hgo; [reflexivity | unfold count; simpl; lia]. }
  destruct (json_Marshal _).
  2: { eexists. split; [simpl; rewrite <- (app_nil_r (fetch_log _ _ _)); reflexivity |].
       apply Hgo; [reflexivity | unfold count; simpl; lia]. }
  destruct (redisSetErr env); eexists;
    (split; [simpl; reflexivity |]);
    (apply Hgo; [reflexivity | unfold count; simpl; lia]).
Qed.

(** ** The claims about the cache-aside resolver *)

(** C1 (as amended).  When the cache misses, the upstream fetch and the
    serialization succeed and the cache Set then fails, the request
    fails: the response is the server-error response with the message
    Error setting value in Redis and carries no payload, and what the
    request did ends with the attempted Set (nothing is printed after
    it).  Nothing is said of the store after the failed Set. *)
Theorem set_failure_fails_request env r σ e weather data err :
  let country := Query_Get r "country" in
  let key := environ env "API_KEY" in
  cached env σ country = Err e →
  key ≠ "" →
  fetched env country key = Ok weather →
  json_Marshal weather = Ok data →
  redisSetErr env = Some err →
  let res := serve redisMiddleware env r σ in
  res.1 = errorResponse "Error setting value in Redis" ∧
  w_status res.1 = Some StatusInternalServerError ∧
  new_events σ res.2 =
    ([EvRedisGet country; EvGetenv "API_KEY"] ++ fetch_log env country key
       ++ [EvRedisSet country data (5 * Minute)])%list.
Proof.
  intros country key Hc Hk Hf Hm Hs res. subst res country key.
  rewrite serve_redisMiddleware. cbv zeta.
  rewrite Hc. destruct (decide _) as [He | _]; [contradiction |].
  rewrite Hf, Hm, Hs. simpl.
  split; [reflexivity |]. split; [reflexivity |].
  unfold new_events. simpl. rewrite drop_app_length. reflexivity.
Qed.

(** C10.  On a cache miss with API_KEY unset or empty the request ends
    with the server-error response after the cache read and the lookup
    of the variable, with no upstream call and no cache write; on a
    cache hit the cached value is returned whatever the process
    environment holds, and the variable is never looked up. *)
Theorem missing_api_key env r σ :
  let country := Query_Get r "country" in
  (∀ e, cached env σ country = Err e →
        environ env "API_KEY" = "" →
        let res := serve redisMiddleware env r σ in
        res.1 = errorResponse "Api key could not found" ∧
        w_status res.1 = Some StatusInternalServerError ∧
        new_events σ res.2 = [EvRedisGet country; EvGetenv "API_KEY"] ∧
        redisDB res.2 = redisDB σ) ∧
  (∀ val, cached env σ country = Ok val →
          ∀ f, let res := serve redisMiddleware (with_environ env f) r σ in
               res.1 = okResponse val ∧
               count is_getenv (new_events σ res.2) = 0%nat).
Proof.
  intros country. split.
  - intros e Hc Hk res. subst res country.
    rewrite serve_redisMiddleware. cbv zeta.
    rewrite Hc, Hk. simpl.
    split; [reflexivity |]. split; [reflexivity |].
    rewrite new_events_add_log. split; reflexivity.
  - intros val Hc f res. subst res country.
    rewrite serve_redisMiddleware. cbv zeta.
    change (cached (with_environ env f) σ) with (cached env σ).
    rewrite Hc. simpl. rewrite new_events_add_log. split; reflexivity.
Qed.

(** C6.  On a cache hit the cached payload is the response body, and
    the request makes no upstream call and no cache write; and any
    request through the handler of [main], admitted or not, reads the
    cache at most once and writes it at most once. *)
Theorem cache_hit_no_upstream env r σ :
  let country := Query_Get r "country" in
  (∀ val, cached env σ country = Ok val →
          let res := serve redisMiddleware env r σ in
          res.1 = okResponse val ∧ w_body res.1 = val ∧
          count is_fetch (new_events σ res.2) = 0%nat ∧
          count is_cacheWrite (new_events σ res.2) = 0%nat ∧
          redisDB res.2 = redisDB σ) ∧
  (let res := serve (weatherHandler SplitHostPort json_Unmarshal json_Marshal)
                    env r σ in
   (count is_cacheRead (new_events σ res.2) <= 1)%nat ∧
   (count is_cacheWrite (new_events σ res.2) <= 1)%nat).
Proof.
  intros country. split.
  - intros val Hc res. subst res country.
    rewrite serve_redisMiddleware. cbv zeta. rewrite Hc. simpl.
    rewrite new_events_add_log. repeat split; reflexivity.
  - intros res. subst res. unfold weatherHandler.
    destruct (serve_rateLimiter_cases redisMiddleware 2%Q 10 env r σ)
      as (σ1 & evs & [-> | ->] & Hlog & _ & Hr & Hw & _).
    + unfold new_events. simpl. rewrite Hlog, drop_app_length, Hr, Hw. lia.
    + destruct (redisMiddleware_log env r σ1) as (evs2 & Hlog2 & Hr2 & Hw2).
      unfold new_events. rewrite Hlog2, Hlog, <- app_assoc, drop_app_length.
      rewrite !count_app, Hr, Hw, Hr2. lia.
Qed.


#[local] Abbreviation FetchFailure := (FetchFailure json_Unmarshal).

(** Each way of failing gives the error of its constructor. *)
Lemma fetched_failure env country key err :
  key ≠ "" →
  FetchFailure env country key err → fetched env country key = Err err.
Proof.
  intros Hk Hf. unfold fetched, getWeatherValue.
  unfold mbind, Prog_bind, mret, Prog_ret, trigger.
  destruct (decide (key = "")) as [He | _]; [contradiction |].
  destruct Hf as [e H1 | e H1 H2 | res e H1 H2 H3 | res body H1 H2 H3 H4
                 | res body e H1 H2 H3 H4 H5]; simpl; rewrite H1; simpl;
    try (rewrite H2; simpl); try (rewrite H3; simpl); try reflexivity.
  - destruct (Z.eqb_spec (StatusCode res) StatusOK); [contradiction | reflexivity].
  - rewrite H4. simpl. rewrite H5. reflexivity.
Qed.


(** C8.  The bytes a fill writes to the response are the bytes it
    stores under the key, and a later request for the key, within the
    five minutes and with Redis reachable, on any world that still holds
    that entry, writes exactly those bytes. *)
Theorem cache_roundtrip env1 env2 r1 r2 σ σ2 e weather data :
  let country := Query_Get r1 "country" in
  let key := environ env1 "API_KEY" in
  cached env1 σ country = Err e →
  key ≠ "" →
  fetched env1 country key = Ok weather →
  json_Marshal weather = Ok data →
  redisSetErr env1 = None →
  let res1 := serve redisMiddleware env1 r1 σ in
  Query_Get r2 "country" = country →
  redisDB σ2 !! country = redisDB res1.2 !! country →
  redisGetErr env2 = None →
  now env2 < now env1 + 5 * Minute →
  let res2 := serve redisMiddleware env2 r2 σ2 in
  res1.1 = okResponse data ∧
  redisDB res1.2 !! country = Some (mkCacheEntry data (now env1) (5 * Minute)) ∧
  res2.1 = okResponse data ∧
  w_body res2.1 = w_body res1.1.
Proof.
  intros country key Hc Hk Hf Hm Hs res1 Hr2 Hdb Hg Ht res2.
  assert (Hres1 : res1.1 = okResponse data ∧
                  redisDB res1.2 !! country
                    = Some (mkCacheEntry data (now env1) (5 * Minute))).
  { subst res1 country key. rewrite serve_redisMiddleware. cbv zeta.
    rewrite Hc. destruct (decide _) as [He | _]; [contradiction |].
    rewrite Hf, Hm, Hs. cbn [fst snd redisDB].
    split; [reflexivity |]. apply lookup_insert_eq. }
  destruct Hres1 as [Hw1 Hdb1]. rewrite Hdb1 in Hdb.
  assert (Hhit : cached env2 σ2 country = Ok data).
  { unfold cached, getRedisValue, trigger. simpl. unfold redis_Get.
    rewrite Hg, Hdb. unfold valid; simpl. destruct (Z.ltb_spec (now env2) (now env1 + 5 * Minute));
      [reflexivity | lia]. }
  assert (Hw2 : res2.1 = okResponse data).
  { subst res2. rewrite serve_redisMiddleware. cbv zeta. rewrite Hr2, Hhit.
    reflexivity. }
  rewrite Hw1, Hw2. repeat split; assumption || reflexivity.
Qed.





(** ** The claims about admission *)

#[local] Abbreviation limited limit burst :=
  (rateLimiterMiddleware redisMiddleware limit burst).

(** A client whose bucket of [b] tokens is full (as it is for a client
    not seen before) sends [b + 1] requests within a window that earns
    less than one token: [b] requests pass, the last one is turned away;
    and after a wait that earns a token the client passes again. *)
Lemma burst_then_deny (limit : Q) (b : nat) σ ip reqs t1 tn :
  let h := limited limit (Z.of_nat b) in
  let times := (λ er : Env * Request, now er.1) <$> reqs in
  (0 < limit)%Q → wf σ →
  starts_full limit (Z.of_nat b) t1 (bucket σ ip) →
  Forall (λ er, clientID er.2 = ip) reqs →
  length reqs = S b →
  StronglySorted Z.le times →
  head times = Some t1 → last times = Some tn →
  (rate.tokensFromDuration limit (tn - t1) < 1)%Q →
  let res := serveAll h reqs σ in
  rejected <$> res.1 = (replicate b false ++ [true])%list ∧
  last res.1 = Some tooManyRequestsResponse ∧
  ∀ env r, clientID r = ip → (1 ≤ b)%nat → tn ≤ now env →
           (1 <= rate.tokensFromDuration limit (now env - tn))%Q →
           rejected (serve h env r res.2).1 = false.
Proof.
  intros h times Hlim Hwf Hfull Hall Hlen Hs Hh Hl Hwin res.
  assert (Hlim0 : (0 <= limit)%Q) by lra.
  pose proof (sorted_bounds times t1 tn Hs Hh Hl) as Hb.
  destruct (serveAll_same_client redisMiddleware limit (Z.of_nat b) ip reqs
              redisMiddleware_keeps_limiters redisMiddleware_never_rejects
              Hall σ Hwf) as (Hwf' & Hb' & Hrej & Hresp & _).
  fold times in Hb', Hrej. fold h in Hwf', Hb', Hrej, Hresp.
  fold res in Hwf', Hb', Hrej, Hresp.
  set (lim0 := default (rate.NewLimiter limit (Z.of_nat b)) (bucket σ ip)) in *.
  assert (Hlim0' : rate.limit lim0 = limit ∧ rate.burst lim0 = Z.of_nat b ∧
                   rate.in_range lim0 ∧ rate.full_at t1 lim0).
  { subst lim0. destruct (bucket σ ip) as [lim |]; [exact Hfull |].
    simpl. split; [reflexivity |]. split; [reflexivity |].
    split; [apply NewLimiter_in_range; lia |].
    unfold rate.full_at. apply advance_ge; simpl; [exact Hlim0 | lra | lra]. }
  destruct Hlim0' as (Hl0 & Hb0 & Hr0 & Hf0).
  assert (Hout : (rate.AllowAll times lim0).1
                 = (replicate b true ++ [false])%list).
  { apply (AllowAll_window limit t1 times Hlim0 b).
    - exact Hl0.
    - rewrite Hb0. lra.
    - intros t Ht. rewrite Hh in Ht. injection Ht as <-.
      unfold rate.full_at in Hf0. rewrite Hb0 in Hf0. exact Hf0.
    - intros t Hin. specialize (Hb t Hin).
      split; [lia |]. split.
      + eapply Qle_lt_trans; [| exact Hwin].
        apply tokensFromDuration_mono; [exact Hlim0 | lia].
      + pose proof (advance_le_burst t lim0) as Ha. rewrite Hb0 in Ha.
        pose proof (tokensFromDuration_nonneg limit (t - t1) Hlim0 ltac:(lia)).
        lra.
    - exact Hs.
    - unfold times. rewrite length_fmap. exact Hlen. }
  rewrite Hout in Hrej. rewrite fmap_app, fmap_replicate in Hrej. simpl in Hrej.
  split; [exact Hrej |]. split.
  - assert (Hlast : rejected <$> last res.1 = Some true).
    { rewrite <- fmap_last, Hrej, last_snoc. reflexivity. }
    destruct (last res.1) as [w |] eqn:Hw; [| discriminate].
    injection Hlast as Hlast. f_equal.
    rewrite Forall_forall in Hresp. apply Hresp; [| exact Hlast].
    eapply last_Some_elem_of, Hw.
  - intros env r Hip Hb1 Htn Hwait.
    destruct (serve_bucket redisMiddleware limit (Z.of_nat b) env r res.2
                redisMiddleware_keeps_limiters redisMiddleware_never_rejects Hwf')
      as (_ & _ & _ & Hr & _).
    fold h in Hr. rewrite Hr, Hip, Hb'.
    rewrite Allow_after_wait; [reflexivity | ..].
    + rewrite AllowAll_limit, Hl0. exact Hlim0.
    + apply AllowAll_in_range; [rewrite Hl0; exact Hlim0 | exact Hr0].
    + rewrite AllowAll_burst, Hb0. lia.
    + rewrite (AllowAll_last_time times tn) by exact Hl. exact Htn.
    + rewrite AllowAll_limit, Hl0, (AllowAll_last_time times tn) by exact Hl.
      exact Hwait.
Qed.


Lemma half_second_window (d : Z) :
  d < 500000000 → (rate.tokensFromDuration 2 d < 1)%Q.
Proof. intros Hd. unfold rate.tokensFromDuration, Qlt. simpl. lia. Qed.

Lemma half_second_wait (d : Z) :
  500000000 ≤ d → (1 <= rate.tokensFromDuration 2 d)%Q.
Proof. intros Hd. unfold rate.tokensFromDuration, Qle. simpl. lia. Qed.

(** An admitted request is answered as the resolver answers it on the
    same Redis, and leaves Redis as the resolver does; a request turned
    away leaves Redis as it was. *)
Lemma serve_admitted limit burst env r σ σ' :
  redisDB σ = redisDB σ' →
  rejected (serve (limited limit burst) env r σ).1 = false →
  (serve (limited limit burst) env r σ).1
    = (serve redisMiddleware env r σ').1 ∧
  redisDB (serve (limited limit burst) env r σ).2
    = redisDB (serve redisMiddleware env r σ').2.
Proof.
  intros Hdb Hrej.
  destruct (serve_rateLimiter_cases redisMiddleware limit burst env r σ)
    as (σ1 & evs & [Hs | Hs] & _ & Hdb1 & _); rewrite Hs in *.
  - discriminate Hrej.
  - assert (Hdb' : redisDB σ1 = redisDB σ') by congruence.
    destruct (serve_redisMiddleware_frame env r r σ1 σ' eq_refl Hdb')
      as (H1 & H2 & _).
    split; assumption.
Qed.

Lemma serve_rejected limit burst env r σ :
  rejected (serve (limited limit burst) env r σ).1 = true →
  redisDB (serve (limited limit burst) env r σ).2 = redisDB σ.
Proof.
  intros Hrej.
  destruct (serve_rateLimiter_cases redisMiddleware limit burst env r σ)
    as (σ1 & evs & [Hs | Hs] & _ & Hdb1 & _); rewrite Hs in *.
  - exact Hdb1.
  - rewrite redisMiddleware_never_rejects in Hrej. discriminate.
Qed.

Lemma serveAll_app h l1 l2 σ :
  serveAll h (l1 ++ l2) σ =
    (((serveAll h l1 σ).1 ++ (serveAll h l2 (serveAll h l1 σ).2).1)%list,
     (serveAll h l2 (serveAll h l1 σ).2).2).
Proof.
  revert σ. induction l1 as [| [env r] l1 IH]; intros σ.
  { simpl. destruct (serveAll h l2 σ); reflexivity. }
  rewrite <- app_comm_cons, !serveAll_cons, IH. reflexivity.
Qed.

Lemma serveAll_length h reqs σ : length (serveAll h reqs σ).1 = length reqs.
Proof.
  revert σ. induction reqs as [| [env r] rest IH]; intros σ; [reflexivity |].
  rewrite serveAll_cons. simpl. rewrite IH. reflexivity.
Qed.

(** Requests that are all admitted get, one after another, the
    responses the resolver alone gives them. *)
Lemma serveAll_admitted limit burst reqs :
  ∀ σ σ',
    redisDB σ = redisDB σ' →
    Forall (λ w, rejected w = false) (serveAll (limited limit burst) reqs σ).1 →
    (serveAll (limited limit burst) reqs σ).1
      = (serveAll redisMiddleware reqs σ').1 ∧
    redisDB (serveAll (limited limit burst) reqs σ).2
      = redisDB (serveAll redisMiddleware reqs σ').2.
Proof.
  induction reqs as [| [env r] rest IH]; intros σ σ' Hdb Hall.
  { split; [reflexivity | exact Hdb]. }
  rewrite !serveAll_cons in *. cbn [fst snd] in *.
  apply Forall_cons in Hall as [Hrej Hall].
  destruct (serve_admitted limit burst env r σ σ' Hdb Hrej) as [Hw Hdb1].
  destruct (IH _ _ Hdb1 Hall) as [Hws Hdb2].
  split; [rewrite Hw, Hws; reflexivity | exact Hdb2].
Qed.

(** C3 (as amended).  With the configuration of [main] (2 tokens per
    second, burst 10), for requests served one after another: a client
    whose bucket is full (as for a client seen for the first time) and
    whose 11 requests fall within a quarter of a second, in which the
    bucket earns at most half a token, has requests 1 to 10 admitted,
    each answered as the resolver alone answers it, and request 11
    answered with the too-many-requests response, which leaves Redis as
    the tenth request left it; and a request of the client at least half
    a second after the eleventh is admitted again and answered by the
    resolver. *)
Theorem rate_limit_scenario σ ip reqs t1 tn :
  let h := weatherHandler SplitHostPort json_Unmarshal json_Marshal in
  let times := (λ er : Env * Request, now er.1) <$> reqs in
  wf σ → starts_full 2 10 t1 (bucket σ ip) →
  Forall (λ er, clientID er.2 = ip) reqs →
  length reqs = 11%nat →
  StronglySorted Z.le times →
  head times = Some t1 → last times = Some tn →
  tn - t1 ≤ 250000000 →
  let res := serveAll h reqs σ in
  let direct := serveAll redisMiddleware (take 10 reqs) σ in
  rejected <$> res.1 = (replicate 10 false ++ [true])%list ∧
  res.1 = (direct.1 ++ [tooManyRequestsResponse])%list ∧
  w_status tooManyRequestsResponse = Some StatusTooManyRequests ∧
  redisDB res.2 = redisDB direct.2 ∧
  ∀ env r, clientID r = ip → tn + 500000000 ≤ now env →
           rejected (serve h env r res.2).1 = false ∧
           (serve h env r res.2).1 = (serve redisMiddleware env r res.2).1.
Proof.
  intros h times Hwf Hfull Hall Hlen Hs Hh Hl Hwin res direct.
  destruct (burst_then_deny 2%Q 10 σ ip reqs t1 tn ltac:(reflexivity) Hwf Hfull
              Hall Hlen Hs Hh Hl (half_second_window (tn - t1) ltac:(lia)))
    as (Hrej & Hlast & Hwait).
  change (serveAll (limited 2 (Z.of_nat 10)) reqs σ) with res
    in Hrej, Hlast, Hwait.
  change (limited 2 (Z.of_nat 10)) with h in Hwait.
  assert (Hagain : ∀ env r, clientID r = ip → tn + 500000000 ≤ now env →
            rejected (serve h env r res.2).1 = false ∧
            (serve h env r res.2).1 = (serve redisMiddleware env r res.2).1).
  { intros env r Hip Ht.
    assert (Hok : rejected (serve h env r res.2).1 = false).
    { apply Hwait; [exact Hip | lia | lia |]. apply half_second_wait. lia. }
    split; [exact Hok |].
    apply (serve_admitted 2%Q 10 env r res.2 res.2 eq_refl Hok). }
  assert (Hdec : ∃ env11 r11, reqs = (take 10 reqs ++ [(env11, r11)])%list).
  { pose proof (take_drop 10 reqs) as Htd.
    destruct (drop 10 reqs) as [| [env11 r11] [| x rest]] eqn:Hdrop;
      try (apply (f_equal length) in Hdrop; rewrite length_drop in Hdrop;
           simpl in Hdrop; lia).
    exists env11, r11. symmetry. exact Htd. }
  destruct Hdec as (env11 & r11 & Hsplit).
  assert (Hres : res = serveAll h (take 10 reqs ++ [(env11, r11)]) σ)
    by (rewrite <- Hsplit; reflexivity).
  rewrite serveAll_app, serveAll_cons in Hres. cbn [serveAll fst snd] in Hres.
  assert (Hlen1 : length (serveAll h (take 10 reqs) σ).1 = 10%nat)
    by (rewrite serveAll_length, length_take; lia).
  rewrite Hres in Hrej, Hlast. cbn [fst snd] in Hrej, Hlast.
  rewrite fmap_app in Hrej. cbn [fmap list_fmap] in Hrej.
  apply app_inj_1 in Hrej as [Hrej1 Hrej11];
    [| rewrite length_fmap, length_replicate; exact Hlen1].
  injection Hrej11 as Hrej11.
  assert (Hadm : Forall (λ w, rejected w = false) (serveAll h (take 10 reqs) σ).1).
  { apply (proj1 (Forall_fmap rejected (λ b, b = false) _)).
    rewrite Hrej1. apply Forall_replicate. reflexivity. }
  destruct (serveAll_admitted 2%Q 10 (take 10 reqs) σ σ eq_refl Hadm)
    as [Hw Hdb].
  fold direct in Hw, Hdb.
  rewrite last_snoc in Hlast. injection Hlast as Hlast.
  split; [rewrite Hres; cbn [fst]; rewrite fmap_app, Hrej1; cbn [fmap list_fmap];
          rewrite Hrej11; reflexivity |].
  split; [rewrite Hres; cbn [fst]; rewrite Hlast; f_equal; exact Hw |].
  split; [reflexivity |].
  split; [| exact Hagain].
  rewrite Hres. cbn [snd]. rewrite <- Hdb.
  apply (serve_rejected 2%Q 10 env11 r11 _ Hrej11).
Qed.

(** C9.  When the remote address of a request does not split into host
    and port, [getIP] yields the empty string; two such requests,
    whatever their addresses, are decided by one and the same bucket,
    the one under the empty string; and with the configuration of [main]
    and that bucket full, eleven such requests within less than half a
    second, even from eleven different addresses, end with the eleventh
    turned away. *)
Theorem unparseable_addresses_share_bucket :
  (∀ r e, SplitHostPort (RemoteAddr r) = Err e →
          ∀ env s, (run env (getIP r) s).1 = "") ∧
  (∀ limit burst σ env1 env2 r1 r2 e1 e2,
     wf σ →
     SplitHostPort (RemoteAddr r1) = Err e1 →
     SplitHostPort (RemoteAddr r2) = Err e2 →
     let h := limited limit burst in
     let lim := default (rate.NewLimiter limit burst) (bucket σ "") in
     let res1 := serve h env1 r1 σ in
     let res2 := serve h env2 r2 res1.2 in
     bucket res1.2 "" = Some (rate.Allow (now env1) lim).2 ∧
     bucket res2.2 "" =
       Some (rate.Allow (now env2) (rate.Allow (now env1) lim).2).2 ∧
     rejected res2.1 =
       negb (rate.Allow (now env2) (rate.Allow (now env1) lim).2).1) ∧
  (∀ σ reqs t1 tn,
     let h := weatherHandler SplitHostPort json_Unmarshal json_Marshal in
     let times := (λ er : Env * Request, now er.1) <$> reqs in
     wf σ → starts_full 2 10 t1 (bucket σ "") →
     Forall (λ er, ∃ e, SplitHostPort (RemoteAddr er.2) = Err e) reqs →
     length reqs = 11%nat →
     StronglySorted Z.le times →
     head times = Some t1 → last times = Some tn →
     tn - t1 < 500000000 →
     rejected <$> (serveAll h reqs σ).1 = (replicate 10 false ++ [true])%list).
Proof.
  assert (Hid : ∀ r e, SplitHostPort (RemoteAddr r) = Err e → clientID r = "").
  { intros r e He. unfold clientID. rewrite He. reflexivity. }
  split; [| split].
  - intros r e He env [σ w]. rewrite run_getIP. simpl. eapply Hid, He.
  - intros limit burst σ env1 env2 r1 r2 e1 e2 Hwf H1 H2 h lim res1 res2.
    destruct (serve_bucket redisMiddleware limit burst env1 r1 σ
                redisMiddleware_keeps_limiters redisMiddleware_never_rejects Hwf)
      as (Hwf1 & Hb1 & _ & _ & _).
    rewrite (Hid _ _ H1) in Hb1. fold h res1 lim in Hb1, Hwf1.
    destruct (serve_bucket redisMiddleware limit burst env2 r2 res1.2
                redisMiddleware_keeps_limiters redisMiddleware_never_rejects Hwf1)
      as (_ & Hb2 & _ & Hr2 & _).
    rewrite (Hid _ _ H2), Hb1 in Hb2, Hr2. fold h res2 in Hb2, Hr2.
    split; [exact Hb1 |]. split; [exact Hb2 | exact Hr2].
  - intros σ reqs t1 tn h times Hwf Hnone Hall Hlen Hs Hh Hl Hwin.
    refine (proj1 (burst_then_deny 2%Q 10 σ "" reqs t1 tn ltac:(reflexivity) Hwf
                     Hnone _ Hlen Hs Hh Hl (half_second_window _ Hwin))).
    eapply Forall_impl; [exact Hall |]. intros [env r] [e He]. eapply Hid, He.
Qed.

(** What one request does to the heap and to the map. *)
Lemma serve_registry next limit burst env r σ :
  keeps_limiters next →
  let res := serve (rateLimiterMiddleware next limit burst) env r σ in
  (ipLimiterMap σ !! clientID r = None →
   heap res.2 = (heap σ ++ [(rate.Allow (now env) (rate.NewLimiter limit burst)).2])%list ∧
   ipLimiterMap res.2 = <[clientID r := length (heap σ)]> (ipLimiterMap σ)) ∧
  (∀ l lim, ipLimiterMap σ !! clientID r = Some l → heap σ !! l = Some lim →
            heap res.2 = <[l := (rate.Allow (now env) lim).2]> (heap σ) ∧
            ipLimiterMap res.2 = ipLimiterMap σ).
Proof.
  intros Hk res. subst res. split.
  - intros Hnone. rewrite (serve_first_sight _ _ _ _ _ _ Hnone). cbv zeta.
    destruct (rate.Allow (now env) _) as [ok lim']. simpl.
    destruct ok; [| split; reflexivity].
    destruct (serve_frame next env r (mkWorld (heap σ ++ [lim'])
                (<[clientID r := length (heap σ)]> (ipLimiterMap σ)) (redisDB σ)
                (log σ ++ getIP_log r ++
                   [EvMapLookup (clientID r) None; EvNewLimiter (length (heap σ));
                    EvMapStore (clientID r) (length (heap σ));
                    EvAllow (length (heap σ)) true])) Hk) as [Hh Hm].
    split; assumption.
  - intros l lim Hsome Hheap. rewrite (serve_known _ _ _ _ _ _ l lim Hsome Hheap).
    cbv zeta. destruct (rate.Allow (now env) lim) as [ok lim']. simpl.
    destruct ok; [| split; reflexivity].
    destruct (serve_frame next env r (mkWorld (<[l := lim']> (heap σ))
                (ipLimiterMap σ) (redisDB σ)
                (log σ ++ getIP_log r ++
                   [EvMapLookup (clientID r) (Some l); EvAllow l true])) Hk)
      as [Hh Hm].
    split; assumption.
Qed.

Lemma NewLimiter_allows (limit : Q) (burst t : Z) :
  (0 <= limit)%Q → 1 ≤ burst →
  (rate.Allow t (rate.NewLimiter limit burst)).1 = true.
Proof.
  intros Hl Hb. apply Allow_true.
  apply advance_ge; simpl; [exact Hl | |]; unfold Qle; simpl; lia.
Qed.



(** ** Requests in flight together *)

(** A request that runs alone, step by step, ends as [run] says. *)
Lemma interleave_alone env (m : Prog unit) :
  ∀ σ w, ∃ n,
    interleave (replicate n 0%nat) ([mkThread env m w], σ) =
      ([mkThread env (Ret (run env m (σ, w)).1) (run env m (σ, w)).2.2],
       (run env m (σ, w)).2.1).
Proof.
  induction m as [a | X e k IH]; intros σ w.
  - exists 0%nat. reflexivity.
  - destruct (handle env e (σ, w)) as [x [σ' w']] eqn:He.
    destruct (IH x σ' w') as [n Hn]. exists (S n).
    change (run env (Vis e k) (σ, w))
      with (let '(x, s') := handle env e (σ, w) in run env (k x) s').
    change (interleave (replicate (S n) 0%nat) ([mkThread env (Vis e k) w], σ))
      with (interleave (replicate n 0%nat)
              (let '(x, (σ', w')) := handle env e (σ, w) in
               ([mkThread env (k x) w'], σ'))).
    rewrite He. exact Hn.
Qed.

(** C4 (as amended).  Nothing makes the lookup and the insert of
    [rateLimiterMiddleware] one step.  Two requests of a client not seen
    before, served one after the other, allocate one limiter, which the
    map then holds.  For the same two requests in flight together there
    are orders of their steps, both lookups coming before either store,
    in which two limiters are allocated: in the order lookup 1, lookup
    2, create 1, store 1, create 2, store 2 the map ends with the second
    limiter; in the order lookup 1, lookup 2, create 1, create 2, store
    2, store 1 it ends with the first.  (Before its lookup a request
    takes the steps of [getIP].) *)
Theorem check_or_create_not_atomic limit burst σ env1 env2 r1 r2 :
  let h := limited limit burst in
  let ip := clientID r1 in
  let pool := [spawn h env1 r1; spawn h env2 r2] in
  let pre := (replicate (length (getIP_log r1)) 0 ++
              replicate (length (getIP_log r2)) 1)%list%nat in
  wf σ → clientID r2 = ip → ipLimiterMap σ !! ip = None →
  (let res := serveAll h [(env1, r1); (env2, r2)] σ in
   length (heap res.2) = S (length (heap σ)) ∧
   ipLimiterMap res.2 !! ip = Some (length (heap σ))) ∧
  (let c := interleave (pre ++ [0; 1; 0; 0; 1; 1])%list%nat (pool, σ) in
   length (heap c.2) = S (S (length (heap σ))) ∧
   ipLimiterMap c.2 !! ip = Some (S (length (heap σ))) ∧
   count is_newLimiter (new_events σ c.2) = 2%nat) ∧
  (let c := interleave (pre ++ [0; 1; 0; 1; 1; 0])%list%nat (pool, σ) in
   length (heap c.2) = S (S (length (heap σ))) ∧
   ipLimiterMap c.2 !! ip = Some (length (heap σ)) ∧
   count is_newLimiter (new_events σ c.2) = 2%nat).
Proof.
  intros h ip pool pre Hwf Hip Hnone. split; [| split].
  - cbv zeta. rewrite !serveAll_cons. cbn [fst snd serveAll].
    pose proof redisMiddleware_keeps_limiters as Hk.
    destruct (serve_registry redisMiddleware limit burst env1 r1 σ Hk)
      as [Hf _]. destruct (Hf Hnone) as [Hh1 Hm1]. clear Hf.
    fold h ip in Hh1, Hm1.
    set (σ1 := (serve h env1 r1 σ).2) in *.
    assert (Hs : ipLimiterMap σ1 !! clientID r2 = Some (length (heap σ)))
      by (rewrite Hip, Hm1; apply lookup_insert_eq).
    assert (Hl : heap σ1 !! length (heap σ)
                 = Some (rate.Allow (now env1) (rate.NewLimiter limit burst)).2).
    { rewrite Hh1, lookup_app_r, Nat.sub_diag by reflexivity. reflexivity. }
    destruct (serve_registry redisMiddleware limit burst env2 r2 σ1 Hk)
      as [_ Hkn]. destruct (Hkn _ _ Hs Hl) as [Hh2 Hm2].
    fold h in Hh2, Hm2. rewrite Hh2, Hm2, length_insert, Hh1, length_app, Hm1.
    simpl. split; [lia | apply lookup_insert_eq].
  - subst pool pre h. unfold spawn, rateLimiterMiddleware, getIP.
    unfold clientID in Hip, ip, Hnone. unfold getIP_log.
    destruct (SplitHostPort (RemoteAddr r1)) as [[host1 port1] | err1];
      destruct (SplitHostPort (RemoteAddr r2)) as [[host2 port2] | err2];
      subst ip; simpl in Hip; subst;
      unfold interleave, mbind, Prog_bind, mret, Prog_ret, trigger; simpl;
      rewrite !Hnone; simpl;
      (split; [rewrite !length_app; simpl; lia |]);
      (split; [rewrite lookup_insert_eq, length_app; simpl; f_equal; lia |]);
      unfold new_events; simpl;
      rewrite <- !app_assoc, drop_app_length; reflexivity.
  - subst pool pre h. unfold spawn, rateLimiterMiddleware, getIP.
    unfold clientID in Hip, ip, Hnone. unfold getIP_log.
    destruct (SplitHostPort (RemoteAddr r1)) as [[host1 port1] | err1];
      destruct (SplitHostPort (RemoteAddr r2)) as [[host2 port2] | err2];
      subst ip; simpl in Hip; subst;
      unfold interleave, mbind, Prog_bind, mret, Prog_ret, trigger; simpl;
      rewrite !Hnone; simpl;
      (split; [rewrite !length_app; simpl; lia |]);
      (split; [rewrite lookup_insert_eq; reflexivity |]);
      unfold new_events; simpl;
      rewrite <- !app_assoc, drop_app_length; reflexivity.
Qed.

End HandlerFacts.

(** * The claims on concrete runs *)

Lemma wf_emptyWorld : wf emptyWorld.
Proof. split; intros *; simpl; rewrite lookup_empty; discriminate. Qed.

Lemma sorted_replicate (n : nat) (t : Z) : StronglySorted Z.le (replicate n t).
Proof.
  induction n as [| n IH]; simpl; constructor; [exact IH |].
  apply Forall_forall. intros x Hx. apply elem_of_replicate in Hx as [-> _]. lia.
Qed.

(** C1, counterexample: the cache misses, the fetch and the
    serialization succeed with payload sunny, the Set fails, and the
    response is a 500 whose body is not the payload. *)
Lemma set_failure_counterexample :
  let env := Sample.env_set_fails 0 in
  let r := Sample.request "1.2.3.4:5" "ankara" in
  let res := serve Sample.redisMiddleware env r emptyWorld in
  cached env emptyWorld "ankara" = Err "redis: nil" ∧
  match fetched Sample.json_Unmarshal env "ankara" "K" with
  | Ok weather => Sample.json_Marshal weather = Ok "sunny"
  | Err _ => False
  end ∧
  redisSetErr env = Some "i/o timeout" ∧
  w_status res.1 = Some StatusInternalServerError ∧
  w_body res.1 ≠ "sunny".
Proof. vm_compute. repeat split; discriminate. Qed.

(** C1 as amended, on the same run. *)
Lemma set_failure_fails_request_witness :
  let env := Sample.env_set_fails 0 in
  let r := Sample.request "1.2.3.4:5" "ankara" in
  (serve Sample.redisMiddleware env r emptyWorld).1
    = errorResponse "Error setting value in Redis".
Proof.
  intros env r.
  refine (proj1 (set_failure_fails_request Sample.json_Unmarshal
                   Sample.json_Marshal env r emptyWorld "redis: nil"
                   (mkWeather 0%float 0%float "sunny" "" "" []) "sunny"
                   "i/o timeout" _ _ _ _ _));
    vm_compute; (reflexivity || discriminate).
Defined.



(** C3, counterexample: eleven requests of one new client at the same
    instant, in flight together.  The first two look the client up
    before either stores its limiter; then each request runs to its end
    ([[0; 1]], then twelve steps of request 0, of request 1, and so on).
    All eleven are answered 200 and none is turned away: the first takes
    a token of a limiter the map no longer holds, the other ten empty
    the second limiter. *)
Lemma burst_in_flight_counterexample :
  let r := Sample.request "1.2.3.4:5" "ankara" in
  let pool := replicate 11 (spawn Sample.weatherHandler (Sample.env_ok 0) r) in
  let sched := ([0; 1]%nat ++ concat (replicate 12 <$> seq 0 11))%list in
  let c := interleave sched (pool, emptyWorld) in
  forallb finished c.1 = true ∧
  (λ th, w_status (t_w th)) <$> c.1 = replicate 11 (Some StatusOK) ∧
  (λ th, rejected (t_w th)) <$> c.1 = replicate 11 false ∧
  length (heap c.2) = 2%nat.
Proof. vm_compute. repeat split. Qed.

(** C3 as amended, on a run: eleven requests of one new client, one
    every 25 milliseconds and served one after another, then one more
    half a second after the eleventh. *)
Lemma rate_limit_scenario_witness :
  let r := Sample.request "1.2.3.4:5" "ankara" in
  let reqs := (λ i : nat, (Sample.env_ok (Z.of_nat i * 25000000), r))
                <$> seq 0 11 in
  let res := serveAll Sample.weatherHandler reqs emptyWorld in
  res.1 = (replicate 10 (okResponse "sunny") ++ [tooManyRequestsResponse])%list ∧
  (serve Sample.weatherHandler (Sample.env_ok 750000000) r res.2).1
    = okResponse "sunny".
Proof.
  intros r reqs res.
  assert (Hall : Forall (λ er : Env * Request,
                           clientID Sample.SplitHostPort er.2 = "1.2.3.4") reqs)
    by (repeat constructor).
  assert (Hs : StronglySorted Z.le ((λ er : Env * Request, now er.1) <$> reqs))
    by (cbv; repeat constructor; discriminate).
  destruct (rate_limit_scenario Sample.SplitHostPort Sample.json_Unmarshal
              Sample.json_Marshal emptyWorld "1.2.3.4" reqs 0 250000000
              wf_emptyWorld I Hall eq_refl Hs eq_refl eq_refl ltac:(lia))
    as (_ & H2 & _ & _ & H5).
  split; [exact H2 |].
  destruct (H5 (Sample.env_ok 750000000) r eq_refl ltac:(simpl; lia))
    as [_ H6].
  exact H6.
Defined.

(** C4, counterexample: two requests of the same new client in flight
    together; both look the client up before either stores, and two
    limiters are created for the one identifier. *)
Lemma two_limiters_counterexample :
  let r := Sample.request "1.2.3.4:5" "ankara" in
  let pool := [spawn Sample.weatherHandler (Sample.env_ok 0) r;
               spawn Sample.weatherHandler (Sample.env_ok 0) r] in
  let c := interleave [0; 1; 0; 0; 1; 1]%nat (pool, emptyWorld) in
  log c.2 = [EvMapLookup "1.2.3.4" None; EvMapLookup "1.2.3.4" None;
             EvNewLimiter 0; EvMapStore "1.2.3.4" 0%nat;
             EvNewLimiter 1; EvMapStore "1.2.3.4" 1%nat] ∧
  length (heap c.2) = 2%nat ∧
  count is_newLimiter (log c.2) = 2%nat.
Proof. vm_compute. repeat split. Qed.

(** C4 as amended, on the same two requests: one limiter when served
    one after the other; two when in flight together, the map ending
    with the limiter stored last. *)
Lemma check_or_create_not_atomic_witness :
  let r := Sample.request "1.2.3.4:5" "ankara" in
  let h := Sample.weatherHandler in
  let pool := [spawn h (Sample.env_ok 0) r; spawn h (Sample.env_ok 0) r] in
  let one_by_one := serveAll h [(Sample.env_ok 0, r); (Sample.env_ok 0, r)]
                      emptyWorld in
  let together := interleave [0; 1; 0; 0; 1; 1]%nat (pool, emptyWorld) in
  let crossed := interleave [0; 1; 0; 1; 1; 0]%nat (pool, emptyWorld) in
  length (heap one_by_one.2) = 1%nat ∧
  (length (heap together.2) = 2%nat ∧
   ipLimiterMap together.2 !! "1.2.3.4" = Some 1%nat) ∧
  (length (heap crossed.2) = 2%nat ∧
   ipLimiterMap crossed.2 !! "1.2.3.4" = Some 0%nat).
Proof.
  intros r h pool one_by_one together crossed.
  destruct (check_or_create_not_atomic Sample.SplitHostPort Sample.json_Unmarshal
              Sample.json_Marshal 2%Q 10 emptyWorld (Sample.env_ok 0)
              (Sample.env_ok 0) r r wf_emptyWorld eq_refl eq_refl)
    as [[H1 _] [(H2 & H3 & _) (H4 & H5 & _)]].
  split; [exact H1 |]. split; [split; [exact H2 | exact H3] |].
  split; [exact H4 | exact H5].
Defined.


(** C6 on a run: a fill, then a hit. *)
Lemma cache_hit_no_upstream_witness :
  let r := Sample.request "1.2.3.4:5" "ankara" in
  let σ := (serve Sample.redisMiddleware (Sample.env_ok 0) r emptyWorld).2 in
  let res := serve Sample.redisMiddleware (Sample.env_ok 1) r σ in
  w_body res.1 = "sunny" ∧
  count is_fetch (new_events σ res.2) = 0%nat ∧
  count is_cacheWrite (new_events σ res.2) = 0%nat.
Proof.
  intros r σ res.
  destruct (proj1 (cache_hit_no_upstream Sample.SplitHostPort
                     Sample.json_Unmarshal Sample.json_Marshal
                     (Sample.env_ok 1) r σ) "sunny" eq_refl)
    as (_ & H2 & H3 & H4 & _).
  split; [exact H2 |]. split; [exact H3 | exact H4].
Defined.


(** C8 on a run: the bytes of a fill and of the hit that follows. *)
Lemma cache_roundtrip_witness :
  let r := Sample.request "1.2.3.4:5" "ankara" in
  let res1 := serve Sample.redisMiddleware (Sample.env_ok 0) r emptyWorld in
  let res2 := serve Sample.redisMiddleware (Sample.env_ok 1) r res1.2 in
  res1.1 = okResponse "sunny" ∧ w_body res2.1 = w_body res1.1.
Proof.
  intros r res1 res2.
  destruct (cache_roundtrip Sample.json_Unmarshal Sample.json_Marshal
              (Sample.env_ok 0) (Sample.env_ok 1) r r emptyWorld res1.2
              "redis: nil" (mkWeather 0%float 0%float "sunny" "" "" []) "sunny"
              eq_refl ltac:(discriminate) eq_refl eq_refl eq_refl
              eq_refl eq_refl eq_refl eq_refl)
    as (H1 & _ & _ & H4).
  split; [exact H1 | exact H4].
Defined.

(** C9 on a run: two addresses without a port. *)
Lemma unparseable_addresses_share_bucket_witness :
  let r1 := Sample.request "alpha" "ankara" in
  let r2 := Sample.request "beta" "ankara" in
  let res1 := serve Sample.weatherHandler (Sample.env_ok 0) r1 emptyWorld in
  let res2 := serve Sample.weatherHandler (Sample.env_ok 0) r2 res1.2 in
  (run (Sample.env_ok 0) (getIP Sample.SplitHostPort r1)
       (emptyWorld, newResponseWriter)).1 = "" ∧
  bucket res2.2 "" =
    Some (rate.Allow 0 (rate.Allow 0 (rate.NewLimiter 2 10)).2).2.
Proof.
  intros r1 r2 res1 res2.
  destruct (unparseable_addresses_share_bucket Sample.SplitHostPort
              Sample.json_Unmarshal Sample.json_Marshal) as (H1 & H2 & _).
  split.
  - exact (H1 r1 _ eq_refl (Sample.env_ok 0) (emptyWorld, newResponseWriter)).
  - exact (proj1 (proj2 (H2 2%Q 10 emptyWorld (Sample.env_ok 0) (Sample.env_ok 0)
                           r1 r2 _ _ wf_emptyWorld eq_refl eq_refl))).
Defined.

(** C10 on a run: no key and a miss; no key and a hit. *)
Lemma missing_api_key_witness :
  let r := Sample.request "1.2.3.4:5" "ankara" in
  let σ := (serve Sample.redisMiddleware (Sample.env_ok 0) r emptyWorld).2 in
  (serve Sample.redisMiddleware (Sample.env_no_key 1) r emptyWorld).1
    = errorResponse "Api key could not found" ∧
  (serve Sample.redisMiddleware (Sample.env_no_key 1) r σ).1
    = okResponse "sunny".
Proof.
  intros r σ. split.
  - exact (proj1 (proj1 (missing_api_key Sample.json_Unmarshal Sample.json_Marshal
                           (Sample.env_no_key 1) r emptyWorld)
                    "redis: nil" eq_refl eq_refl)).
  - exact (proj1 (proj2 (missing_api_key Sample.json_Unmarshal Sample.json_Marshal
                           (Sample.env_ok 1) r σ)
                    "sunny" eq_refl (λ _, ""))).
Defined.

(** A bucket emptied by a burst is full again five seconds later. *)
Lemma drained_bucket_refills :
  let r := Sample.request "1.2.3.4:5" "ankara" in
  let σ := (serveAll Sample.weatherHandler (replicate 11 (Sample.env_ok 0, r))
              emptyWorld).2 in
  wf σ ∧ starts_full 2 10 5000000000 (bucket σ "1.2.3.4").
Proof.
  intros r σ. split.
  - apply (serveAll_wf Sample.SplitHostPort Sample.redisMiddleware 2%Q 10).
    + apply redisMiddleware_keeps_limiters.
    + apply redisMiddleware_never_rejects.
    + exact wf_emptyWorld.
  - vm_compute. repeat split; discriminate.
Qed.

(** * Beyond the claims *)

Section Coverage.
#[local] Set Warnings "-clear-no-such-hyp".
Variable SplitHostPort : string → result (string * string).
Variable json_Unmarshal : string → result Weather.
Variable json_Marshal : Weather → result string.

#[local] Abbreviation getIP := (getIP SplitHostPort).
#[local] Abbreviation clientID := (clientID SplitHostPort).
#[local] Abbreviation getIP_log := (getIP_log SplitHostPort).
#[local] Abbreviation rateLimiterMiddleware := (rateLimiterMiddleware SplitHostPort).
#[local] Abbreviation redisMiddleware := (redisMiddleware json_Unmarshal json_Marshal).
#[local] Abbreviation getWeatherValue := (getWeatherValue json_Unmarshal).
#[local] Abbreviation fetched := (fetched json_Unmarshal).
#[local] Abbreviation fetch_log := (fetch_log json_Unmarshal).
#[local] Abbreviation FetchFailure := (FetchFailure json_Unmarshal).
#[local] Abbreviation weatherHandler :=
  (weatherHandler SplitHostPort json_Unmarshal json_Marshal).
#[local] Abbreviation limited limit burst :=
  (rateLimiterMiddleware redisMiddleware limit burst).

(** Membership in an explicit list of events, case by case. *)
Ltac in_events :=
  repeat match goal with
         | H : _ ∈ (_ ++ _)%list |- _ => apply elem_of_app in H as [H | H]
         | H : _ ∈ _ :: _ |- _ => apply elem_of_cons in H as [H | H]
         | H : _ ∈ [] |- _ => apply elem_of_nil in H; contradiction
         | H : @eq Event _ _ |- _ =>
             first [discriminate H | injection H; clear H; intros; subst]
         end; try reflexivity.

(** ** [getWeatherValue] *)

(** X1.  [getWeatherValue] leaves the response writer, the limiters and
    Redis alone; all it logs is at most one upstream call, to the URL of
    the defaulted country and the key; and with an empty key, or when
    the request cannot be created, it returns its error without calling
    the upstream at all. *)
Theorem getWeatherValue_frame env country key σ w :
  let out := run env (getWeatherValue country key) (σ, w) in
  let url := weatherURL (defaulted country) key in
  out.2.2 = w ∧
  heap out.2.1 = heap σ ∧ ipLimiterMap out.2.1 = ipLimiterMap σ ∧
  redisDB out.2.1 = redisDB σ ∧
  (new_events σ out.2.1 = [] ∨ new_events σ out.2.1 = [EvHttpDo url]) ∧
  (key = "" →
   out.1 = Err "API key cannot be empty" ∧ new_events σ out.2.1 = []) ∧
  (∀ e, key ≠ "" → newRequestErr env url = Some e →
        out.1 = Err ("failed to create HTTP request: " ++ e) ∧
        new_events σ out.2.1 = []).
Proof.
  intros out url. subst out. rewrite run_getWeatherValue. cbn [fst snd].
  rewrite new_events_add_log.
  split; [reflexivity |]. split; [reflexivity |]. split; [reflexivity |].
  split; [reflexivity |]. split; [exact (fetch_log_cases _ env country key) |].
  unfold fetched, fetch_log, getWeatherValue.
  unfold mbind, Prog_bind, mret, Prog_ret, trigger. split.
  - intros Hk. destruct (decide (key = "")); [| contradiction].
    split; reflexivity.
  - intros e Hk He. destruct (decide (key = "")); [contradiction |].
    simpl. fold (defaulted country). fold url. rewrite He. split; reflexivity.
Qed.

(** X2.  [getWeatherValue] returns a weather exactly when the key is not
    empty, the request is created, the upstream answers, the body is
    read, the status is 200 and the body deserializes to that weather;
    and it returns an error exactly when the key is empty (with the
    error for that) or the fetch fails in one of its five ways (with the
    error of that way).  Any status other than 200, a 2xx included, is a
    failure. *)
Theorem getWeatherValue_result env country key :
  let url := weatherURL (defaulted country) key in
  (∀ weather,
     fetched env country key = Ok weather ↔
     key ≠ "" ∧ newRequestErr env url = None ∧
     ∃ res body, upstream env url = Ok res ∧ Body res = Ok body ∧
                 StatusCode res = StatusOK ∧
                 json_Unmarshal body = Ok weather) ∧
  (∀ err,
     fetched env country key = Err err ↔
     (key = "" ∧ err = "API key cannot be empty") ∨
     (key ≠ "" ∧ FetchFailure env country key err)).
Proof.
  intros url.
  assert (Hcases :
    (key = "" ∧ fetched env country key = Err "API key cannot be empty") ∨
    (key ≠ "" ∧
     ((∃ err, fetched env country key = Err err ∧
              FetchFailure env country key err) ∨
      (∃ weather res body,
         fetched env country key = Ok weather ∧
         newRequestErr env url = None ∧ upstream env url = Ok res ∧
         Body res = Ok body ∧ StatusCode res = StatusOK ∧
         json_Unmarshal body = Ok weather)))).
  { unfold fetched, getWeatherValue.
    unfold mbind, Prog_bind, mret, Prog_ret, trigger.
    destruct (decide (key = "")) as [Hk | Hk]; [left; split; [exact Hk | reflexivity] |].
    right. split; [exact Hk |]. simpl. fold (defaulted country). fold url.
    destruct (newRequestErr env url) as [e |] eqn:H1; simpl.
    { left. eexists. split; [reflexivity |]. apply RequestNotCreated. exact H1. }
    destruct (upstream env url) as [res | e] eqn:H2; simpl.
    2: { left. eexists. split; [reflexivity |].
         apply UpstreamUnavailable; assumption. }
    destruct (Body res) as [body | e] eqn:H3; simpl.
    2: { left. eexists. split; [reflexivity |].
         eapply BodyUnreadable; eassumption. }
    destruct (Z.eqb_spec (StatusCode res) StatusOK) as [H4 | H4]; simpl.
    2: { left. eexists. split; [reflexivity |].
         eapply UpstreamRejected; eassumption. }
    destruct (json_Unmarshal body) as [weather | e] eqn:H5.
    - right. exists weather, res, body. repeat split; assumption || reflexivity.
    - left. eexists. split; [reflexivity |].
      eapply UpstreamMalformed; eassumption. }
  subst url. unfold defaulted in *.
  split.
  - intros weather. split.
    + intros Hf.
      destruct Hcases as [[_ Hc] | [Hk [(err & Hc & _) | (w' & res & body & Hc & H1 & H2 & H3 & H4 & H5)]]];
        rewrite Hc in Hf; try discriminate.
      injection Hf as <-. split; [exact Hk |]. split; [exact H1 |].
      exists res, body. repeat split; assumption.
    + intros (Hk & H1 & res & body & H2 & H3 & H4 & H5).
      destruct Hcases as [[Hk' _] | [_ [(err & Hc & Hff) | (w' & res' & body' & Hc & _ & H2' & H3' & _ & H5')]]].
      * contradiction.
      * exfalso.
        destruct Hff as [e G1 | e G1 G2 | r0 e G1 G2 G3 | r0 b0 G1 G2 G3 G4
                        | r0 b0 e G1 G2 G3 G4 G5];
          try congruence;
          rewrite H2 in G2; injection G2 as <-; try congruence;
          rewrite H3 in G3; injection G3 as <-; congruence.
      * rewrite Hc. rewrite H2 in H2'. injection H2' as <-.
        rewrite H3 in H3'. injection H3' as <-. congruence.
  - intros err. split.
    + intros Hf.
      destruct Hcases as [[Hk Hc] | [Hk [(err' & Hc & Hff) | (w' & res & body & Hc & _)]]];
        rewrite Hc in Hf; try discriminate; injection Hf as <-.
      * left. split; [exact Hk | reflexivity].
      * right. split; assumption.
    + intros [[Hk ->] | [Hk Hff]].
      * destruct Hcases as [[_ Hc] | [Hk' _]]; [exact Hc | contradiction].
      * apply fetched_failure; assumption.
Qed.


(** ** The limiter in front of the resolver *)

Lemma getIP_log_admission r :
  Forall (λ ev, is_admission ev = true) (getIP_log r).
Proof.
  unfold getIP_log. destruct (SplitHostPort _) as [hp | err];
    repeat constructor.
Qed.

(** The admission part of a request, as a line of admission events
    followed by either the too-many-requests response or [next]. *)
Lemma serve_rateLimiter_split next limit burst env r σ :
  ∃ σ1 evs,
    (serve (rateLimiterMiddleware next limit burst) env r σ
       = (tooManyRequestsResponse, σ1) ∨
     serve (rateLimiterMiddleware next limit burst) env r σ
       = serve next env r σ1) ∧
    log σ1 = (log σ ++ evs)%list ∧ redisDB σ1 = redisDB σ ∧
    Forall (λ ev, is_admission ev = true) evs.
Proof.
  pose proof (getIP_log_admission r) as Hg.
  destruct (ipLimiterMap σ !! clientID r) as [l |] eqn:Hmap.
  - destruct (heap σ !! l) as [lim |] eqn:Hheap.
    + rewrite (serve_known _ _ _ _ _ _ _ l lim Hmap Hheap). cbv zeta.
      destruct (rate.Allow (now env) lim) as [ok lim'].
      do 2 eexists. split; [destruct ok; [right | left]; reflexivity |].
      split; [reflexivity |]. split; [reflexivity |].
      apply Forall_app. split; [exact Hg | repeat constructor].
    + rewrite (serve_dangling _ _ _ _ _ _ _ l Hmap Hheap).
      do 2 eexists. split; [left; reflexivity |].
      split; [reflexivity |]. split; [reflexivity |].
      apply Forall_app. split; [exact Hg | repeat constructor].
  - rewrite (serve_first_sight _ _ _ _ _ _ _ Hmap). cbv zeta.
    destruct (rate.Allow (now env) _) as [ok lim'].
    do 2 eexists. split; [destruct ok; [right | left]; reflexivity |].
    split; [reflexivity |]. split; [reflexivity |].
    apply Forall_app. split; [exact Hg | repeat constructor].
Qed.

Lemma count_admission p (evs : list Event) :
  (∀ ev, is_admission ev = true → p ev = false) →
  Forall (λ ev, is_admission ev = true) evs → count p evs = 0%nat.
Proof.
  intros Hp Hall. unfold count. induction Hall as [| ev evs Hev _ IH];
    [reflexivity |].
  simpl. rewrite (Hp ev Hev). exact IH.
Qed.

(** X3.  A request the limiter turns away ends there: the response is
    the too-many-requests response, Redis is left as it was, and the
    request reads no cache entry, looks up no API key, calls no upstream
    and writes no cache entry. *)
Theorem rejected_before_any_work env r σ :
  let res := serve weatherHandler env r σ in
  rejected res.1 = true →
  res.1 = tooManyRequestsResponse ∧
  redisDB res.2 = redisDB σ ∧
  count is_cacheRead (new_events σ res.2) = 0%nat ∧
  count is_getenv (new_events σ res.2) = 0%nat ∧
  count is_fetch (new_events σ res.2) = 0%nat ∧
  count is_cacheWrite (new_events σ res.2) = 0%nat.
Proof.
  intros res Hrej. subst res. unfold weatherHandler in *.
  destruct (serve_rateLimiter_split redisMiddleware 2%Q 10 env r σ)
    as (σ1 & evs & [Hs | Hs] & Hlog & Hdb & Hall); rewrite Hs in *.
  - cbn [fst snd]. unfold new_events. rewrite Hlog, drop_app_length.
    split; [reflexivity |]. split; [exact Hdb |].
    repeat split; (apply count_admission; [| exact Hall]);
      intros [] Hev; (discriminate Hev || reflexivity).
  - rewrite redisMiddleware_never_rejects in Hrej. discriminate.
Qed.

(** X4.  A request the limiter admits gets the response the resolver
    gives on the same Redis, leaves Redis as the resolver leaves it, and
    logs the admission events followed by the resolver's events: the
    limiter changes nothing in what an admitted request does. *)
Theorem admitted_served_by_resolver env r σ :
  let res := serve weatherHandler env r σ in
  let direct := serve redisMiddleware env r σ in
  rejected res.1 = false →
  res.1 = direct.1 ∧
  redisDB res.2 = redisDB direct.2 ∧
  ∃ evs, Forall (λ ev, is_admission ev = true) evs ∧
         new_events σ res.2 = (evs ++ new_events σ direct.2)%list.
Proof.
  intros res direct Hrej. subst res direct. unfold weatherHandler in *.
  destruct (serve_rateLimiter_split redisMiddleware 2%Q 10 env r σ)
    as (σ1 & evs & [Hs | Hs] & Hlog & Hdb & Hall); rewrite Hs in *.
  - discriminate Hrej.
  - destruct (serve_redisMiddleware_frame json_Unmarshal json_Marshal
                 env r r σ1 σ eq_refl Hdb)
      as (Hw & Hr & He).
    split; [exact Hw |]. split; [exact Hr |].
    exists evs. split; [exact Hall |]. rewrite <- He.
    destruct (redisMiddleware_log json_Unmarshal json_Marshal env r σ1)
      as (evs2 & Hlog2 & _).
    unfold new_events. rewrite Hlog2, Hlog, <- app_assoc, drop_app_length.
    rewrite (app_assoc (log σ)), <- Hlog, drop_app_length. reflexivity.
Qed.

(** X5.  The resolver serves every client alike: its response, the
    Redis it leaves and the events it logs depend on the request only
    through the country and on the world only through Redis, whatever
    the remote address and the state of the limiters. *)
Theorem resolver_ignores_client env r1 r2 σ1 σ2 :
  Query_Get r1 "country" = Query_Get r2 "country" →
  redisDB σ1 = redisDB σ2 →
  (serve redisMiddleware env r1 σ1).1 = (serve redisMiddleware env r2 σ2).1 ∧
  redisDB (serve redisMiddleware env r1 σ1).2
    = redisDB (serve redisMiddleware env r2 σ2).2 ∧
  new_events σ1 (serve redisMiddleware env r1 σ1).2
    = new_events σ2 (serve redisMiddleware env r2 σ2).2 ∧
  heap (serve redisMiddleware env r1 σ1).2 = heap σ1 ∧
  ipLimiterMap (serve redisMiddleware env r1 σ1).2 = ipLimiterMap σ1.
Proof.
  intros Hq Hdb.
  destruct (serve_redisMiddleware_frame json_Unmarshal json_Marshal
              env r1 r2 σ1 σ2 Hq Hdb) as (H1 & H2 & H3).
  destruct (redisMiddleware_keeps_limiters json_Unmarshal json_Marshal env r1 σ1)
    as [H4 H5].
  repeat split; assumption.
Qed.


(** X6.  Every response of the handler of [main] has one of three
    shapes: the too-many-requests response (429, JSON), a server-error
    response (500, plain text, the message and a newline), or a 200
    whose body is the payload and on which the handler has set no
    header. *)
Theorem response_shapes env r σ :
  let res := serve weatherHandler env r σ in
  res.1 = tooManyRequestsResponse ∨
  (∃ msg, res.1 = errorResponse msg) ∨
  (∃ data, res.1 = okResponse data).
Proof.
  intros res. subst res. unfold weatherHandler.
  destruct (serve_rateLimiter_split redisMiddleware 2%Q 10 env r σ)
    as (σ1 & evs & [Hs | Hs] & _); rewrite Hs; [left; reflexivity |].
  right. rewrite serve_redisMiddleware. cbv zeta.
  destruct (cached env σ1 _); [right; eexists; reflexivity |].
  destruct (decide _); [left; eexists; reflexivity |].
  destruct (fetched env _ _); [| left; eexists; reflexivity].
  destruct (json_Marshal _); [| left; eexists; reflexivity].
  destruct (redisSetErr env); [left | right]; eexists; reflexivity.
Qed.

(** X7.  Clients are told apart by host alone: two requests whose
    remote addresses split to the same host, whatever their ports, are
    decided by one bucket, and the second allocates no limiter and
    leaves the map as it is. *)
Theorem same_host_shares_bucket limit burst σ env1 env2 r1 r2 host p1 p2 :
  wf σ →
  SplitHostPort (RemoteAddr r1) = Ok (host, p1) →
  SplitHostPort (RemoteAddr r2) = Ok (host, p2) →
  let h := limited limit burst in
  let lim := default (rate.NewLimiter limit burst) (bucket σ host) in
  let res1 := serve h env1 r1 σ in
  let res2 := serve h env2 r2 res1.2 in
  bucket res1.2 host = Some (rate.Allow (now env1) lim).2 ∧
  bucket res2.2 host =
    Some (rate.Allow (now env2) (rate.Allow (now env1) lim).2).2 ∧
  rejected res2.1 =
    negb (rate.Allow (now env2) (rate.Allow (now env1) lim).2).1 ∧
  ipLimiterMap res2.2 = ipLimiterMap res1.2 ∧
  length (heap res2.2) = length (heap res1.2).
Proof.
  intros Hwf H1 H2 h lim res1 res2.
  pose proof (redisMiddleware_keeps_limiters json_Unmarshal json_Marshal) as Hk.
  pose proof (redisMiddleware_never_rejects json_Unmarshal json_Marshal) as Hn.
  assert (Hid1 : clientID r1 = host) by (unfold clientID; rewrite H1; reflexivity).
  assert (Hid2 : clientID r2 = host) by (unfold clientID; rewrite H2; reflexivity).
  destruct (serve_bucket SplitHostPort redisMiddleware limit burst env1 r1 σ
              Hk Hn Hwf) as (Hwf1 & Hb1 & _ & _ & _).
  rewrite Hid1 in Hb1. fold h res1 lim in Hb1, Hwf1.
  destruct (serve_bucket SplitHostPort redisMiddleware limit burst env2 r2 res1.2
              Hk Hn Hwf1) as (_ & Hb2 & _ & Hr2 & _).
  rewrite Hid2, Hb1 in Hb2, Hr2. fold h res2 in Hb2, Hr2.
  split; [exact Hb1 |]. split; [exact Hb2 |]. split; [exact Hr2 |].
  unfold bucket in Hb1.
  destruct (ipLimiterMap res1.2 !! host) as [l |] eqn:Hmap; [| discriminate].
  simpl in Hb1.
  destruct (serve_registry SplitHostPort redisMiddleware limit burst env2 r2
              res1.2 Hk) as [_ Hkn].
  rewrite Hid2 in Hkn. destruct (Hkn l _ Hmap Hb1) as [Hh Hm].
  fold h res2 in Hh, Hm. split; [exact Hm |].
  rewrite Hh. apply length_insert.
Qed.

(** One request and the registry: the map gains at most the client's
    identifier and loses nothing, and heap and map grow together. *)
Lemma serve_grows limit burst env r σ :
  wf σ →
  let res := serve (limited limit burst) env r σ in
  ipLimiterMap σ ⊆ ipLimiterMap res.2 ∧
  dom (ipLimiterMap res.2) =@{gset string} dom (ipLimiterMap σ) ∪ {[clientID r]} ∧
  (length (heap σ) = size (ipLimiterMap σ) →
   length (heap res.2) = size (ipLimiterMap res.2)).
Proof.
  intros Hwf res.
  pose proof (redisMiddleware_keeps_limiters json_Unmarshal json_Marshal) as Hk.
  destruct (serve_registry SplitHostPort redisMiddleware limit burst env r σ Hk)
    as [Hf Hkn]. fold res in Hf, Hkn.
  destruct (ipLimiterMap σ !! clientID r) as [l |] eqn:Hmap.
  - destruct Hwf as [Hlt _].
    destruct (lookup_lt_is_Some_2 (heap σ) l (Hlt _ _ Hmap)) as [lim Hheap].
    destruct (Hkn l lim eq_refl Hheap) as [Hh Hm]. rewrite Hh, Hm.
    split; [reflexivity |]. split.
    + apply elem_of_dom_2 in Hmap. set_solver.
    + rewrite length_insert. tauto.
  - destruct (Hf eq_refl) as [Hh Hm]. rewrite Hh, Hm.
    split; [apply insert_subseteq; exact Hmap |]. split.
    + rewrite dom_insert_L. set_solver.
    + intros Hsz. rewrite length_app, map_size_insert_None by exact Hmap.
      simpl. lia.
Qed.

(** X8.  The registry only grows: over any run of requests served one
    after another no identifier is dropped and no known client is moved
    to another limiter, the identifiers mapped at the end are those
    mapped at the start and those of the requests, and there is exactly
    one limiter for each of them. *)
Theorem registry_only_grows limit burst reqs :
  ∀ σ, one_each σ →
    let res := serveAll (limited limit burst) reqs σ in
    one_each res.2 ∧
    ipLimiterMap σ ⊆ ipLimiterMap res.2 ∧
    dom (ipLimiterMap res.2) =@{gset string}
      dom (ipLimiterMap σ) ∪ list_to_set ((λ er, clientID er.2) <$> reqs).
Proof.
  pose proof (redisMiddleware_keeps_limiters json_Unmarshal json_Marshal) as Hk.
  pose proof (redisMiddleware_never_rejects json_Unmarshal json_Marshal) as Hn.
  induction reqs as [| [env r] rest IH]; intros σ [Hwf Hsz].
  { simpl. split; [split; assumption |]. split; [reflexivity | set_solver]. }
  cbv zeta. rewrite serveAll_cons. cbn [fst snd].
  destruct (serve_grows limit burst env r σ Hwf) as (Hsub & Hdom & Hsz1).
  assert (Hwf1 : wf (serve (limited limit burst) env r σ).2)
    by apply (serve_bucket SplitHostPort redisMiddleware limit burst env r σ
                Hk Hn Hwf).
  destruct (IH _ (conj Hwf1 (Hsz1 Hsz))) as (Hone & Hsub2 & Hdom2).
  split; [exact Hone |]. split; [etrans; eassumption |].
  rewrite Hdom2, Hdom, fmap_cons. simpl. set_solver.
Qed.


(** ** The resolver and the cache *)

(** A fetch that succeeds has called the upstream once. *)
Lemma fetched_Ok_log env country key weather :
  fetched env country key = Ok weather →
  fetch_log env country key = [EvHttpDo (weatherURL (defaulted country) key)].
Proof.
  unfold fetched, fetch_log, getWeatherValue, defaulted.
  unfold mbind, Prog_bind, mret, Prog_ret, trigger.
  destruct (decide (key = "")); simpl; [discriminate |].
  destruct (newRequestErr env _); simpl; [discriminate |].
  destruct (upstream env _) as [res | err]; simpl; [| discriminate].
  destruct (Body res); simpl; [| discriminate].
  destruct (negb _); simpl; [discriminate |].
  destruct (json_Unmarshal _); [reflexivity | discriminate].
Qed.

(** X9.  The resolver never caches an error: whenever a request writes
    to the cache, the cache had missed, the API key is set, the fetch
    succeeded, and what is written, under the request's own country and
    for five minutes, is the serialization of the fetched weather. *)
Theorem cache_write_only_fetched env r σ k v d :
  let res := serve redisMiddleware env r σ in
  EvRedisSet k v d ∈ new_events σ res.2 →
  k = Query_Get r "country" ∧ d = 5 * Minute ∧
  (∃ e, cached env σ k = Err e) ∧
  environ env "API_KEY" ≠ "" ∧
  ∃ weather, fetched env k (environ env "API_KEY") = Ok weather ∧
             json_Marshal weather = Ok v.
Proof.
  intros res. subst res. rewrite serve_redisMiddleware. cbv zeta.
  pose proof (fetch_log_cases json_Unmarshal env (Query_Get r "country")
                (environ env "API_KEY")) as Hfl.
  destruct (cached env σ _) as [val | e] eqn:Hc.
  { cbn [snd]. intros Hin. rewrite new_events_add_log in Hin. in_events. }
  destruct (decide (environ env "API_KEY" = "")) as [Hk | Hk].
  { cbn [snd]. rewrite new_events_add_log. intros Hin. in_events. }
  destruct (fetched env _ _) as [weather | err] eqn:Hf.
  2: { cbn [snd]. rewrite new_events_add_log. intros Hin.
       destruct Hfl as [Hfl | Hfl]; rewrite Hfl in Hin; in_events. }
  destruct (json_Marshal weather) as [data | err] eqn:Hm.
  2: { cbn [snd]. rewrite new_events_add_log. intros Hin.
       destruct Hfl as [Hfl | Hfl]; rewrite Hfl in Hin; in_events. }
  assert (Hgoal : ∀ tl, (∀ ev, ev ∈ tl → ev = EvRedisSet (Query_Get r "country") data (5 * Minute) ∨ is_cacheWrite ev = false) →
            EvRedisSet k v d ∈ ([EvRedisGet (Query_Get r "country"); EvGetenv "API_KEY"]
                                  ++ fetch_log env (Query_Get r "country") (environ env "API_KEY")
                                  ++ tl)%list →
            k = Query_Get r "country" ∧ d = 5 * Minute ∧
            (∃ e, cached env σ k = Err e) ∧ environ env "API_KEY" ≠ "" ∧
            ∃ weather, fetched env k (environ env "API_KEY") = Ok weather ∧
                       json_Marshal weather = Ok v).
  { intros tl Htl Hin.
    assert (Hin' : EvRedisSet k v d ∈ tl).
    { destruct Hfl as [Hfl | Hfl]; rewrite Hfl in Hin;
        repeat (apply elem_of_app in Hin as [Hin | Hin]);
        in_events; exact Hin. }
    destruct (Htl _ Hin') as [Heq | Hno]; [| discriminate Hno].
    injection Heq as -> -> ->.
    split; [reflexivity |]. split; [reflexivity |].
    split; [eexists; exact Hc |]. split; [exact Hk |].
    exists weather. split; assumption. }
  destruct (redisSetErr env).
  - cbn [snd]. rewrite new_events_mkWorld, <- app_assoc. apply Hgoal.
    intros ev Hev. apply list_elem_of_singleton in Hev as ->. left; reflexivity.
  - cbn [snd]. unfold new_events. cbn [log]. rewrite drop_app_length, <- app_assoc.
    apply Hgoal. intros ev Hev.
    apply elem_of_cons in Hev as [-> | Hev]; [left; reflexivity |].
    apply list_elem_of_singleton in Hev as ->. right; reflexivity.
Qed.

(** X10.  The resolver answers 200 or 500, and what it answers with 200
    is in the cache: after such a request Redis holds, under the
    request's country, an entry valid at the instant of the request
    whose payload is the body of the response. *)
Theorem ok_response_is_cached env r σ :
  let res := serve redisMiddleware env r σ in
  (w_status res.1 = Some StatusOK ∨
   w_status res.1 = Some StatusInternalServerError) ∧
  (w_status res.1 = Some StatusOK →
   ∃ e, redisDB res.2 !! Query_Get r "country" = Some e ∧
        valid (now env) e = true ∧ payload e = w_body res.1 ∧
        res.1 = okResponse (payload e)).
Proof.
  intros res. subst res. rewrite serve_redisMiddleware. cbv zeta.
  destruct (cached env σ _) as [val | e] eqn:Hc.
  { cbn [fst snd]. split; [left; reflexivity |]. intros _.
    unfold cached, getRedisValue, trigger in Hc. simpl in Hc.
    unfold redis_Get in Hc.
    destruct (redisGetErr env); [discriminate |].
    destruct (redisDB σ !! Query_Get r "country") as [en |] eqn:Hdb;
      [| discriminate].
    destruct (valid (now env) en) eqn:Hv; [| discriminate].
    injection Hc as <-. exists en. repeat split; assumption || reflexivity. }
  destruct (decide _); [split; [right; reflexivity | discriminate] |].
  destruct (fetched env _ _); [| split; [right; reflexivity | discriminate]].
  destruct (json_Marshal _) as [data | err];
    [| split; [right; reflexivity | discriminate]].
  destruct (redisSetErr env); [split; [right; reflexivity | discriminate] |].
  cbn [fst snd redisDB]. split; [left; reflexivity |]. intros _.
  eexists. split; [apply lookup_insert_eq |].
  split; [| split; reflexivity].
  unfold valid; simpl. apply Z.ltb_lt. unfold Minute, Second. lia.
Qed.

(** X11.  Two requests for one country, the first a fill and the second
    within five minutes of it with Redis reachable: the upstream is
    called once over the two, the cache is written once, the second
    response is the first, and the second leaves Redis as it found
    it. *)
Theorem fill_then_hit_one_fetch env1 env2 r1 r2 σ e weather data :
  let country := Query_Get r1 "country" in
  let key := environ env1 "API_KEY" in
  cached env1 σ country = Err e →
  key ≠ "" →
  fetched env1 country key = Ok weather →
  json_Marshal weather = Ok data →
  redisSetErr env1 = None →
  Query_Get r2 "country" = country →
  redisGetErr env2 = None →
  now env2 < now env1 + 5 * Minute →
  let res1 := serve redisMiddleware env1 r1 σ in
  let res2 := serve redisMiddleware env2 r2 res1.2 in
  res2.1 = res1.1 ∧
  redisDB res2.2 = redisDB res1.2 ∧
  count is_fetch (new_events σ res2.2) = 1%nat ∧
  count is_cacheWrite (new_events σ res2.2) = 1%nat ∧
  count is_cacheRead (new_events σ res2.2) = 2%nat.
Proof.
  intros country key Hc Hk Hf Hm Hs Hq Hg Ht res1 res2.
  assert (Hres1 : res1 =
    (okResponse data,
     mkWorld (heap σ) (ipLimiterMap σ)
       (<[country := mkCacheEntry data (now env1) (5 * Minute)]> (redisDB σ))
       (log σ ++ ([EvRedisGet country; EvGetenv "API_KEY"]
                    ++ [EvHttpDo (weatherURL (defaulted country) key)])
              ++ [EvRedisSet country data (5 * Minute); EvPrintln "No redis"]))).
  { subst res1 country key. rewrite serve_redisMiddleware. cbv zeta.
    rewrite Hc. destruct (decide _) as [He | _]; [contradiction |].
    rewrite Hf, Hm, Hs, (fetched_Ok_log _ _ _ _ Hf). reflexivity. }
  assert (Hhit : cached env2 res1.2 country = Ok data).
  { rewrite Hres1. unfold cached, getRedisValue, trigger. simpl.
    unfold redis_Get. rewrite Hg, lookup_insert_eq. unfold valid; simpl.
    destruct (Z.ltb_spec (now env2) (now env1 + 5 * Minute)); [reflexivity | lia]. }
  assert (Hres2 : res2 = (okResponse data,
            add_log res1.2 [EvRedisGet country; EvPrintln "Yes redis"])).
  { subst res2. rewrite serve_redisMiddleware. cbv zeta. rewrite Hq, Hhit.
    reflexivity. }
  rewrite Hres2. cbn [fst snd]. rewrite Hres1. cbn [fst snd].
  split; [reflexivity |]. split; [reflexivity |].
  unfold new_events, add_log. cbn [log].
  rewrite <- !app_assoc, drop_app_length. repeat split; reflexivity.
Qed.

(** X12.  Five minutes after a fill, to the nanosecond, its entry no
    longer answers: a request for the country then misses the cache,
    looks the API key up and, with the upstream and Redis answering,
    returns the newly fetched payload and replaces the entry by one
    inserted at its own instant. *)
Theorem expired_entry_refetched env1 env2 r1 r2 σ e weather data :
  let country := Query_Get r1 "country" in
  let key := environ env1 "API_KEY" in
  cached env1 σ country = Err e →
  key ≠ "" →
  fetched env1 country key = Ok weather →
  json_Marshal weather = Ok data →
  redisSetErr env1 = None →
  Query_Get r2 "country" = country →
  now env1 + 5 * Minute ≤ now env2 →
  let res1 := serve redisMiddleware env1 r1 σ in
  let res2 := serve redisMiddleware env2 r2 res1.2 in
  (∃ e2, cached env2 res1.2 country = Err e2) ∧
  take 2 (new_events res1.2 res2.2) = [EvRedisGet country; EvGetenv "API_KEY"] ∧
  ∀ weather2 data2,
    environ env2 "API_KEY" ≠ "" →
    fetched env2 country (environ env2 "API_KEY") = Ok weather2 →
    json_Marshal weather2 = Ok data2 →
    redisSetErr env2 = None →
    res2.1 = okResponse data2 ∧
    redisDB res2.2 !! country
      = Some (mkCacheEntry data2 (now env2) (5 * Minute)).
Proof.
  intros country key Hc Hk Hf Hm Hs Hq Ht res1 res2.
  assert (Hdb1 : redisDB res1.2 !! country
                 = Some (mkCacheEntry data (now env1) (5 * Minute))).
  { subst res1 country key. rewrite serve_redisMiddleware. cbv zeta.
    rewrite Hc. destruct (decide _) as [He | _]; [contradiction |].
    rewrite Hf, Hm, Hs. cbn [snd redisDB]. apply lookup_insert_eq. }
  assert (Hmiss : ∃ e2, cached env2 res1.2 country = Err e2).
  { unfold cached, getRedisValue, trigger. simpl. unfold redis_Get.
    destruct (redisGetErr env2); [eexists; reflexivity |].
    rewrite Hdb1. unfold valid; simpl.
    destruct (Z.ltb_spec (now env2) (now env1 + 5 * Minute)); [lia |].
    eexists; reflexivity. }
  destruct Hmiss as [e2 Hmiss]. split; [exists e2; exact Hmiss |].
  subst res2. rewrite serve_redisMiddleware. cbv zeta. rewrite Hq, Hmiss.
  split.
  - destruct (decide (environ env2 "API_KEY" = ""));
      [| destruct (fetched env2 country (environ env2 "API_KEY")) as [w2 | err2];
         [destruct (json_Marshal w2); [destruct (redisSetErr env2) |] |]];
      cbn [snd]; unfold new_events, add_log; cbn [log];
      rewrite drop_app_length; reflexivity.
  - intros weather2 data2 Hk2 Hf2 Hm2 Hs2.
    destruct (decide _) as [He | _]; [contradiction |].
    rewrite Hf2, Hm2, Hs2. cbn [fst snd redisDB].
    split; [reflexivity | apply lookup_insert_eq].
Qed.


(** X15.  A failing Redis read is taken for a miss, whatever Redis
    holds: the request looks the API key up and, with the key set, goes
    to the upstream; when the fetch, the serialization and the Set
    succeed, the response is the newly fetched payload and the entry of
    the country is replaced. *)
Theorem redis_read_failure_is_a_miss env r σ err :
  let country := Query_Get r "country" in
  let key := environ env "API_KEY" in
  let res := serve redisMiddleware env r σ in
  redisGetErr env = Some err →
  cached env σ country = Err err ∧
  take 2 (new_events σ res.2) = [EvRedisGet country; EvGetenv "API_KEY"] ∧
  (key ≠ "" → newRequestErr env (weatherURL (defaulted country) key) = None →
   count is_fetch (new_events σ res.2) = 1%nat) ∧
  ∀ weather data,
    key ≠ "" → fetched env country key = Ok weather →
    json_Marshal weather = Ok data → redisSetErr env = None →
    res.1 = okResponse data ∧
    redisDB res.2 !! country = Some (mkCacheEntry data (now env) (5 * Minute)).
Proof.
  intros country key res Hg.
  assert (Hc : cached env σ country = Err err).
  { unfold cached, getRedisValue, trigger. simpl. unfold redis_Get.
    rewrite Hg. reflexivity. }
  split; [exact Hc |].
  subst res. rewrite serve_redisMiddleware. cbv zeta. fold country key.
  rewrite Hc.
  assert (Hfl : key ≠ "" →
                newRequestErr env (weatherURL (defaulted country) key) = None →
                fetch_log env country key
                  = [EvHttpDo (weatherURL (defaulted country) key)]).
  { intros Hk Hn. unfold fetch_log, getWeatherValue.
    unfold mbind, Prog_bind, mret, Prog_ret, trigger.
    destruct (decide (key = "")); [contradiction |]. simpl.
    fold (defaulted country). rewrite Hn. simpl.
    destruct (upstream env _) as [res | e]; simpl; [| reflexivity].
    destruct (Body res); simpl; [| reflexivity].
    destruct (negb _); simpl; [reflexivity |].
    destruct (json_Unmarshal _); reflexivity. }
  destruct (decide (key = "")) as [Hk | Hk].
  { cbn [fst snd]. rewrite new_events_add_log.
    split; [reflexivity |]. split; [contradiction |].
    intros; contradiction. }
  destruct (fetched env country key) as [w1 | e1] eqn:Hf.
  2: { cbn [fst snd]. rewrite new_events_add_log.
       split; [reflexivity |]. split.
       - intros _ Hn. rewrite (Hfl Hk Hn). reflexivity.
       - intros weather data _ Hw. discriminate Hw. }
  destruct (json_Marshal w1) as [d1 | e1] eqn:Hm.
  2: { cbn [fst snd]. rewrite new_events_add_log.
       split; [reflexivity |]. split.
       - intros _ Hn. rewrite (Hfl Hk Hn). reflexivity.
       - intros weather data _ Hw Hm'. injection Hw as <-.
         rewrite Hm in Hm'. discriminate Hm'. }
  destruct (redisSetErr env) as [e1 |] eqn:Hs.
  - cbn [fst snd]. rewrite new_events_mkWorld.
    split; [reflexivity |]. split.
    + intros _ Hn. rewrite (Hfl Hk Hn). reflexivity.
    + intros weather data _ _ _ Hs'. discriminate Hs'.
  - cbn [fst snd redisDB]. unfold new_events. cbn [log].
    rewrite drop_app_length.
    split; [reflexivity |]. split.
    + intros _ Hn. rewrite (Hfl Hk Hn). reflexivity.
    + intros weather data _ Hw Hm' _. injection Hw as <-.
      rewrite Hm in Hm'. injection Hm' as <-.
      split; [reflexivity | apply lookup_insert_eq].
Qed.

(** X16.  A request changes at most the cache entry of its own country:
    through the handler of [main], the entry of every other key is after
    the request what it was before. *)
Theorem other_keys_untouched env r σ k :
  let res := serve weatherHandler env r σ in
  k ≠ Query_Get r "country" →
  redisDB res.2 !! k = redisDB σ !! k.
Proof.
  intros res Hk. subst res. unfold weatherHandler.
  destruct (serve_rateLimiter_split redisMiddleware 2%Q 10 env r σ)
    as (σ1 & evs & [Hs | Hs] & _ & Hdb & _); rewrite Hs; cbn [snd];
    [rewrite Hdb; reflexivity |].
  rewrite <- Hdb. rewrite serve_redisMiddleware. cbv zeta.
  destruct (cached env σ1 (Query_Get r "country")); [reflexivity |].
  destruct (decide (environ env "API_KEY" = "")); [reflexivity |].
  destruct (fetched env (Query_Get r "country") (environ env "API_KEY"))
    as [w1 | e1]; [| reflexivity].
  destruct (json_Marshal w1); [| reflexivity].
  destruct (redisSetErr env);
    [destruct (redisSetApplied env); [| reflexivity] |];
    cbn [snd redisDB]; apply lookup_insert_ne; congruence.
Qed.

(** ** A client at the configured rate *)

(** Calls spaced so that each wait earns a token all pass, once the
    first one does. *)
Lemma AllowAll_spaced (gap : Z) (times : list Z) :
  ∀ lim,
    (0 <= rate.limit lim)%Q → rate.in_range lim → 1 ≤ rate.burst lim →
    0 ≤ gap →
    (1 <= rate.tokensFromDuration (rate.limit lim) gap)%Q →
    spaced gap times →
    (∀ t, head times = Some t → (rate.Allow t lim).1 = true) →
    (rate.AllowAll times lim).1 = replicate (length times) true.
Proof.
  induction times as [| t rest IH]; intros lim Hl Hr Hb Hg0 Hg Hs Hfirst;
    [reflexivity |].
  rewrite AllowAll_cons. cbn [fst length replicate].
  rewrite (Hfirst t eq_refl). f_equal.
  apply IH.
  - rewrite Allow_limit. exact Hl.
  - apply Allow_in_range; assumption.
  - rewrite Allow_burst. exact Hb.
  - exact Hg0.
  - rewrite Allow_limit. exact Hg.
  - simpl in Hs. destruct rest as [| t' rest']; [exact I | apply Hs].
  - intros t' Ht'. destruct rest as [| t'' rest']; [discriminate |].
    injection Ht' as ->. simpl in Hs. destruct Hs as [Hs _].
    apply Allow_after_wait.
    + rewrite Allow_limit. exact Hl.
    + apply Allow_in_range; assumption.
    + rewrite Allow_burst. exact Hb.
    + rewrite Allow_last. lia.
    + rewrite Allow_limit, Allow_last.
      eapply Qle_trans; [exact Hg |].
      apply tokensFromDuration_mono; [exact Hl | lia].
Qed.

(** X14.  With the configuration of [main], a client is never turned
    away for keeping to the rate: when its requests are at least half a
    second apart and the first of them is admitted (as it is for a
    client not seen before), every one of them is admitted. *)
Theorem steady_client_never_rejected σ ip reqs :
  let times := (λ er : Env * Request, now er.1) <$> reqs in
  let res := serveAll weatherHandler reqs σ in
  wf σ →
  configured 2 10 (bucket σ ip) →
  Forall (λ er, clientID er.2 = ip) reqs →
  spaced 500000000 times →
  (bucket σ ip = None ∨ (rejected <$> head res.1) = Some false) →
  rejected <$> res.1 = replicate (length reqs) false.
Proof.
  intros times res Hwf Hconf Hall Hsp Hfirst.
  pose proof (redisMiddleware_keeps_limiters json_Unmarshal json_Marshal) as Hk.
  pose proof (redisMiddleware_never_rejects json_Unmarshal json_Marshal) as Hn.
  destruct (serveAll_same_client SplitHostPort redisMiddleware 2%Q 10 ip reqs
              Hk Hn Hall σ Hwf) as (_ & _ & Hrej & _).
  fold times in Hrej.
  change (serveAll (limited 2 10) reqs σ) with res in Hrej.
  set (lim0 := default (rate.NewLimiter 2 10) (bucket σ ip)) in *.
  assert (Hlim0 : rate.limit lim0 = 2%Q ∧ rate.burst lim0 = 10 ∧
                  rate.in_range lim0).
  { subst lim0. destruct (bucket σ ip) as [lim |]; [exact Hconf |].
    simpl. split; [reflexivity |]. split; [reflexivity |].
    apply NewLimiter_in_range. lia. }
  destruct Hlim0 as (Hl0 & Hb0 & Hr0).
  rewrite Hrej, (AllowAll_spaced 500000000 times lim0).
  - rewrite fmap_replicate. unfold times. rewrite length_fmap. reflexivity.
  - rewrite Hl0. discriminate.
  - exact Hr0.
  - rewrite Hb0. lia.
  - lia.
  - rewrite Hl0. apply half_second_wait. lia.
  - exact Hsp.
  - intros t Ht. destruct Hfirst as [Hnone | Hadm].
    + subst lim0. rewrite Hnone. simpl. apply NewLimiter_allows; [discriminate | lia].
    + destruct reqs as [| [env r] rest]; [discriminate |].
      subst res times. rewrite serveAll_cons in Hadm, Hrej.
      rewrite fmap_cons, AllowAll_cons in Hrej. cbn [fst] in Hadm, Hrej.
      rewrite fmap_cons in Hrej. injection Hrej as Hrej _.
      simpl in Hadm. injection Hadm as Hadm. rewrite Hadm in Hrej.
      simpl in Ht. injection Ht as <-. simpl in Hrej.
      apply negb_false_iff. symmetry. exact Hrej.
Qed.

End Coverage.

(** * The further properties on concrete runs *)

(** X1 on a run: no key, no upstream call. *)
Lemma getWeatherValue_frame_witness :
  let out := run (Sample.env_ok 0)
               (getWeatherValue Sample.json_Unmarshal "ankara" "")
               (emptyWorld, newResponseWriter) in
  out.1 = Err "API key cannot be empty" ∧ new_events emptyWorld out.2.1 = [].
Proof.
  intros out.
  destruct (getWeatherValue_frame Sample.json_Unmarshal (Sample.env_ok 0)
              "ankara" "" emptyWorld newResponseWriter)
    as (_ & _ & _ & _ & _ & H & _).
  exact (H eq_refl).
Defined.

(** X2 on a run: a 201 is a failure. *)
Lemma getWeatherValue_result_witness :
  let env := mkEnv 0 Sample.environ None None false (λ _, None)
               (Sample.respond 201 "created") in
  fetched Sample.json_Unmarshal env "ankara" "K"
    = Err "status code : 201 , message : created".
Proof.
  intros env.
  apply (proj2 (getWeatherValue_result Sample.json_Unmarshal env "ankara" "K")).
  right. split; [discriminate |].
  exact (UpstreamRejected Sample.json_Unmarshal env "ankara" "K"
           (mkHttpResponse 201 (Ok "created")) "created"
           eq_refl eq_refl eq_refl ltac:(discriminate)).
Defined.

(** X3 on a run: the eleventh request of a burst. *)
Lemma rejected_before_any_work_witness :
  let r := Sample.request "1.2.3.4:5" "izmir" in
  let σ := (serveAll Sample.weatherHandler (replicate 10 (Sample.env_ok 0, r))
              emptyWorld).2 in
  let res := serve Sample.weatherHandler (Sample.env_ok 0) r σ in
  res.1 = tooManyRequestsResponse ∧ redisDB res.2 = redisDB σ.
Proof.
  intros r σ res.
  destruct (rejected_before_any_work Sample.SplitHostPort Sample.json_Unmarshal
              Sample.json_Marshal (Sample.env_ok 0) r σ
              ltac:(vm_compute; reflexivity))
    as (H1 & H2 & _).
  split; [exact H1 | exact H2].
Defined.

(** X4 on a run: the first request of a client. *)
Lemma admitted_served_by_resolver_witness :
  let r := Sample.request "1.2.3.4:5" "izmir" in
  (serve Sample.weatherHandler (Sample.env_ok 0) r emptyWorld).1
    = (serve Sample.redisMiddleware (Sample.env_ok 0) r emptyWorld).1.
Proof.
  intros r.
  exact (proj1 (admitted_served_by_resolver Sample.SplitHostPort
                  Sample.json_Unmarshal Sample.json_Marshal (Sample.env_ok 0)
                  r emptyWorld ltac:(vm_compute; reflexivity))).
Defined.

(** X5 on a run: two clients, two limiter states, one answer. *)
Lemma resolver_ignores_client_witness :
  let r1 := Sample.request "1.2.3.4:5" "izmir" in
  let r2 := Sample.request "5.6.7.8:9" "izmir" in
  let σ2 := (serve Sample.weatherHandler (Sample.env_no_key 0) r1 emptyWorld).2 in
  (serve Sample.redisMiddleware (Sample.env_ok 0) r1 emptyWorld).1
    = (serve Sample.redisMiddleware (Sample.env_ok 0) r2 σ2).1.
Proof.
  intros r1 r2 σ2.
  exact (proj1 (resolver_ignores_client Sample.json_Unmarshal Sample.json_Marshal
                  (Sample.env_ok 0) r1 r2 emptyWorld σ2 eq_refl
                  ltac:(vm_compute; reflexivity))).
Defined.

(** X7 on a run: one host, two ports. *)
Lemma same_host_shares_bucket_witness :
  let r1 := Sample.request "1.2.3.4:5" "izmir" in
  let r2 := Sample.request "1.2.3.4:6" "izmir" in
  let res1 := serve Sample.weatherHandler (Sample.env_ok 0) r1 emptyWorld in
  let res2 := serve Sample.weatherHandler (Sample.env_ok 0) r2 res1.2 in
  ipLimiterMap res2.2 = ipLimiterMap res1.2 ∧
  length (heap res2.2) = length (heap res1.2).
Proof.
  intros r1 r2 res1 res2.
  destruct (same_host_shares_bucket Sample.SplitHostPort Sample.json_Unmarshal
              Sample.json_Marshal 2%Q 10 emptyWorld (Sample.env_ok 0)
              (Sample.env_ok 0) r1 r2 "1.2.3.4" "5" "6" wf_emptyWorld
              eq_refl eq_refl)
    as (_ & _ & _ & H4 & H5).
  split; [exact H4 | exact H5].
Defined.

(** X8 on a run: three requests of two clients. *)
Lemma registry_only_grows_witness :
  let a := Sample.request "1.2.3.4:5" "izmir" in
  let b := Sample.request "5.6.7.8:9" "izmir" in
  let res := serveAll Sample.weatherHandler
               [(Sample.env_ok 0, a); (Sample.env_ok 0, b); (Sample.env_ok 0, a)]
               emptyWorld in
  one_each res.2.
Proof.
  intros a b res.
  exact (proj1 (registry_only_grows Sample.SplitHostPort Sample.json_Unmarshal
                  Sample.json_Marshal 2%Q 10
                  [(Sample.env_ok 0, a); (Sample.env_ok 0, b); (Sample.env_ok 0, a)]
                  emptyWorld (conj wf_emptyWorld eq_refl))).
Defined.

(** X9 on a run: the write of a fill. *)
Lemma cache_write_only_fetched_witness :
  let r := Sample.request "1.2.3.4:5" "izmir" in
  ∃ weather,
    fetched Sample.json_Unmarshal (Sample.env_ok 0) "izmir" "K" = Ok weather ∧
    Sample.json_Marshal weather = Ok "sunny".
Proof.
  intros r.
  refine (proj2 (proj2 (proj2 (proj2
            (cache_write_only_fetched Sample.json_Unmarshal Sample.json_Marshal
               (Sample.env_ok 0) r emptyWorld "izmir" "sunny" (5 * Minute) _))))).
  vm_compute. repeat constructor.
Defined.

(** X10 on a run: a fill. *)
Lemma ok_response_is_cached_witness :
  let r := Sample.request "1.2.3.4:5" "izmir" in
  let res := serve Sample.redisMiddleware (Sample.env_ok 0) r emptyWorld in
  ∃ e, redisDB res.2 !! "izmir" = Some e ∧ valid 0 e = true ∧
       payload e = w_body res.1 ∧ res.1 = okResponse (payload e).
Proof.
  intros r res.
  exact (proj2 (ok_response_is_cached Sample.json_Unmarshal Sample.json_Marshal
                  (Sample.env_ok 0) r emptyWorld) eq_refl).
Defined.

(** X11 on a run: a fill, and a hit one nanosecond before the entry
    runs out. *)
Lemma fill_then_hit_one_fetch_witness :
  let r := Sample.request "1.2.3.4:5" "izmir" in
  let res1 := serve Sample.redisMiddleware (Sample.env_ok 0) r emptyWorld in
  let res2 := serve Sample.redisMiddleware (Sample.env_ok 299999999999) r res1.2 in
  res2.1 = res1.1 ∧ count is_fetch (new_events emptyWorld res2.2) = 1%nat.
Proof.
  intros r res1 res2.
  destruct (fill_then_hit_one_fetch Sample.json_Unmarshal Sample.json_Marshal
              (Sample.env_ok 0) (Sample.env_ok 299999999999) r r emptyWorld
              "redis: nil" (mkWeather 0%float 0%float "sunny" "" "" []) "sunny"
              eq_refl ltac:(discriminate) eq_refl eq_refl eq_refl eq_refl
              eq_refl eq_refl)
    as (H1 & _ & H3 & _).
  split; [exact H1 | exact H3].
Defined.

(** X12 on a run: a fill, and a request exactly five minutes later. *)
Lemma expired_entry_refetched_witness :
  let r := Sample.request "1.2.3.4:5" "izmir" in
  let env2 := mkEnv 300000000000 Sample.environ None None false (λ _, None)
                (Sample.respond 200 "rainy") in
  let res1 := serve Sample.redisMiddleware (Sample.env_ok 0) r emptyWorld in
  let res2 := serve Sample.redisMiddleware env2 r res1.2 in
  res2.1 = okResponse "rainy" ∧
  redisDB res2.2 !! "izmir"
    = Some (mkCacheEntry "rainy" 300000000000 (5 * Minute)).
Proof.
  intros r env2 res1 res2.
  destruct (expired_entry_refetched Sample.json_Unmarshal Sample.json_Marshal
              (Sample.env_ok 0) env2 r r emptyWorld
              "redis: nil" (mkWeather 0%float 0%float "sunny" "" "" []) "sunny"
              eq_refl ltac:(discriminate) eq_refl eq_refl eq_refl eq_refl
              ltac:(discriminate))
    as (_ & _ & H).
  exact (H (mkWeather 0%float 0%float "rainy" "" "" []) "rainy"
           ltac:(discriminate) eq_refl eq_refl eq_refl).
Defined.

(** X14 on a run: a new client, one request every half second. *)
Lemma steady_client_never_rejected_witness :
  let r := Sample.request "1.2.3.4:5" "izmir" in
  let reqs := [(Sample.env_ok 0, r); (Sample.env_ok 500000000, r);
               (Sample.env_ok 1000000000, r)] in
  rejected <$> (serveAll Sample.weatherHandler reqs emptyWorld).1
    = [false; false; false].
Proof.
  intros r reqs.
  apply (steady_client_never_rejected Sample.SplitHostPort Sample.json_Unmarshal
           Sample.json_Marshal emptyWorld "1.2.3.4" reqs wf_emptyWorld I).
  - repeat constructor.
  - simpl. repeat split; discriminate.
  - left. reflexivity.
Defined.

(** X15 on a run: Redis holds a valid entry but cannot be read. *)
Lemma redis_read_failure_is_a_miss_witness :
  let r := Sample.request "1.2.3.4:5" "izmir" in
  let σ := (serve Sample.redisMiddleware (Sample.env_ok 0) r emptyWorld).2 in
  let env := mkEnv 1 Sample.environ (Some "i/o timeout") None false (λ _, None)
               (Sample.respond 200 "rainy") in
  let res := serve Sample.redisMiddleware env r σ in
  valid 1 <$> (redisDB σ !! "izmir") = Some true ∧
  res.1 = okResponse "rainy" ∧
  redisDB res.2 !! "izmir" = Some (mkCacheEntry "rainy" 1 (5 * Minute)).
Proof.
  intros r σ env res. split; [vm_compute; reflexivity |].
  destruct (redis_read_failure_is_a_miss Sample.json_Unmarshal Sample.json_Marshal
              env r σ "i/o timeout" eq_refl) as (_ & _ & _ & H).
  exact (H (mkWeather 0%float 0%float "rainy" "" "" []) "rainy"
           ltac:(discriminate) eq_refl eq_refl eq_refl).
Defined.

(** X16 on a run: a fill for izmir leaves the entry of ankara alone. *)
Lemma other_keys_untouched_witness :
  let σ := (serve Sample.redisMiddleware (Sample.env_ok 0)
              (Sample.request "1.2.3.4:5" "ankara") emptyWorld).2 in
  let res := serve Sample.weatherHandler (Sample.env_ok 7)
               (Sample.request "1.2.3.4:5" "izmir") σ in
  redisDB res.2 !! "ankara" = redisDB σ !! "ankara".
Proof.
  intros σ res.
  exact (other_keys_untouched Sample.SplitHostPort Sample.json_Unmarshal
           Sample.json_Marshal (Sample.env_ok 7)
           (Sample.request "1.2.3.4:5" "izmir") σ "ankara" ltac:(discriminate)).
Defined.
